(** * cobalt: the WASM bytecode reader, its LEB128 codec and the multi-array

    A shallow embedding of
    - [WasmBytecodeReaderBase] ([cobalt/bc/reader_base.h]) with the
      out-of-line definitions of [cobalt/bc/internal/values.h] and
      [cobalt/bc/internal/types.h],
    - [Limit] and [ValueType] ([cobalt/ast/types.h]),
    - [SmallMultiArray] and [MultiArrayBuilder] ([cobalt/utility/multi_array.h]).

    Machine integers are [Z] with the wrap-around written out, bytes are
    [Init.Byte.byte], a [std::span<u8>] is the list of the bytes it views, and
    the reader methods live in a state-and-exception monad over the reader
    object, because a C++ exception leaves the reader where the throwing
    call left it. *)

From Stdlib Require Import ZArith Lia Bool List.
From stdpp Require Import base list.
From coqutil Require Import Byte.

Local Open Scope Z_scope.

(** ** Machine integers ([cobalt/support/types.h]) *)

(** Reduction of a mathematical integer to an unsigned [w]-bit one. *)
Definition wrap (w x : Z) : Z := x mod 2 ^ w.

Definition wrap32 : Z -> Z := wrap 32.
Definition wrap64 : Z -> Z := wrap 64.

(** [~u64{0}] *)
Definition u64_ones : Z := 2 ^ 64 - 1.

(** [std::numeric_limits<std::uint32_t>::max()] *)
Definition u32_max : Z := 2 ^ 32 - 1.

(** [std::bit_cast<i64>(x)] for a [u64] x: the two's-complement reading. *)
Definition bit_cast_i64 (x : Z) : Z := if x <? 2 ^ 63 then x else x - 2 ^ 64.

(** [x << s] on [u64]. *)
Definition shl64 (x s : Z) : Z := wrap64 (Z.shiftl x s).

(** [(x & mask) != 0] *)
Definition has_bits (x mask : Z) : bool := negb (Z.land x mask =? 0).

(** ** Outcomes of a reader method

    [Throw] is a [WasmBytecodeReadException]; the four kinds are the four
    messages the reader throws with.  [Undefined] is undefined behaviour of
    the C++ program: an access outside a span, or control flowing off the
    end of a value-returning function.  [OutOfFuel] belongs to the model
    only: the loop of [read_leb128_internal] is run with a bound on its
    iterations. *)

Inductive ReadError : Type :=
| UnexpectedEndOfInput
| UnexpectedByte (expected actual : byte)
| UnknownTypeTag (tag : byte)
| InvalidVarInt.

Inductive Outcome (A : Type) : Type :=
| Ok (a : A)
| Throw (e : ReadError)
| Undefined
| OutOfFuel.

Arguments Ok {A} a.
Arguments Throw {A} e.
Arguments Undefined {A}.
Arguments OutOfFuel {A}.

(** ** [std::span<u8>] *)

Module span.

Definition t : Type := list byte.

Definition empty (s : t) : bool :=
  match s with
  | [] => true
  | _ :: _ => false
  end.

(** [s[i]]; [None] is the access outside the span. *)
Definition at_ (s : t) (i : nat) : option byte := s !! i.

(** [s.subspan(offset)]; [None] when [offset > s.size()]. *)
Definition subspan (s : t) (offset : nat) : option t :=
  if (offset <=? length s)%nat then Some (drop offset s) else None.

End span.

(** ** The reader object and its monad *)

Record WasmBytecodeReaderBase : Type := { remaining_ : span.t }.

Definition Read (A : Type) : Type :=
  WasmBytecodeReaderBase -> Outcome A * WasmBytecodeReaderBase.

Definition ret {A : Type} (a : A) : Read A := fun r => (Ok a, r).

Definition throw {A : Type} (e : ReadError) : Read A := fun r => (Throw e, r).

Definition undefined {A : Type} : Read A := fun r => (Undefined, r).

Definition bind {A B : Type} (m : Read A) (k : A -> Read B) : Read B :=
  fun r =>
    match m r with
    | (Ok a, r') => k a r'
    | (Throw e, r') => (Throw e, r')
    | (Undefined, r') => (Undefined, r')
    | (OutOfFuel, r') => (OutOfFuel, r')
    end.

Notation "'let*' x ':=' m 'in' k" := (bind m (fun x => k))
  (at level 10, x name, m at level 100, k at level 200).

(** ** [cobalt/bc/reader_base.h] *)

Definition consume : Read byte :=
  fun r =>
    if span.empty (remaining_ r) then (Throw UnexpectedEndOfInput, r)
    else
      match span.at_ (remaining_ r) 0 with
      | None => (Undefined, r)
      | Some curr =>
          match span.subspan (remaining_ r) 1 with
          | None => (Undefined, r)
          | Some rest => (Ok curr, {| remaining_ := rest |})
          end
      end.

Definition expect (value : byte) : Read unit :=
  let* got := consume in
  if negb (byte.unsigned got =? byte.unsigned value)
  then throw (UnexpectedByte value got)
  else ret tt.

(** The loop of [consume_n]: [todo] iterations are left, [i] is the loop
    counter, [buf] the array filled so far. *)
Fixpoint consume_n_loop (todo i : nat) (buf : list byte) : Read (list byte) :=
  match todo with
  | O => ret buf
  | S todo' =>
      let* b := consume in
      consume_n_loop todo' (S i) (<[i := b]> buf)
  end.

Definition consume_n (N : nat) : Read (list byte) :=
  consume_n_loop N 0 (replicate N Byte.x00).

(** ** [cobalt/bc/internal/values.h] *)

Module internal.

Definition bits_per_iteration : Z := 7.
Definition leb128_value : Z := 0x7F.
Definition leb128_continue : Z := 0x80.
Definition leb128_sign : Z := 0x40.

Record LEB128ReaderResult : Type :=
  { result : Z; shift : Z; last_byte : Z }.

End internal.

Definition read_byte : Read byte := consume.

(** The [do ... while] loop of [read_leb128_internal<N>] followed by its
    check; [acc] and [sh] are the variables [result] and [shift] on entry to
    the body.  [N] is an [int], compared with the [u64] shift after the usual
    conversion.  The function asserts [N <= 64] statically; at such a width
    the body is entered with a shift below 64 only, so that the shift of the
    seven value bits is defined. *)
Fixpoint read_leb128_loop (N : Z) (fuel : nat) (acc sh : Z)
  : Read internal.LEB128ReaderResult :=
  match fuel with
  | O => fun r => (OutOfFuel, r)
  | S fuel' =>
      let* b := consume in
      let last := byte.unsigned b in
      let acc' := Z.lor acc (shl64 (Z.land last internal.leb128_value) sh) in
      let sh' := wrap64 (sh + internal.bits_per_iteration) in
      if has_bits last internal.leb128_continue && (sh' <? wrap64 N)
      then read_leb128_loop N fuel' acc' sh'
      else if has_bits last internal.leb128_continue && negb (sh' <? wrap64 N)
      then throw InvalidVarInt
      else ret {| internal.result := acc';
                  internal.shift := sh';
                  internal.last_byte := last |}
  end.

(** Every iteration consumes a byte, so one more iteration than there are
    bytes is all the loop can make. *)
Definition read_leb128_internal (N : Z) : Read internal.LEB128ReaderResult :=
  fun r => read_leb128_loop N (S (length (remaining_ r))) 0 0 r.

Definition read_leb128_unsigned (N : Z) : Read Z :=
  let* parsed := read_leb128_internal N in
  ret (internal.result parsed).

Definition read_leb128_signed (N : Z) : Read Z :=
  let* parsed := read_leb128_internal N in
  let result := internal.result parsed in
  let result :=
    if (internal.shift parsed <? 64)
       && has_bits (internal.last_byte parsed) internal.leb128_sign
    then Z.lor result (shl64 u64_ones (internal.shift parsed))
    else result in
  ret (bit_cast_i64 result).

(** ** [cobalt/ast/types.h] *)

Inductive ValueType : Type :=
| i32 | i64 | f32 | f64 | v128 | func_ref | extern_ref.

(** The enumerators' values. *)
Definition ValueType_value (ty : ValueType) : Z :=
  match ty with
  | i32 => 0x7F
  | i64 => 0x7E
  | f32 => 0x7D
  | f64 => 0x7C
  | v128 => 0x7B
  | func_ref => 0x70
  | extern_ref => 0x6F
  end.

Module Limit.

Record t : Type := { min_ : Z; max_ : Z }.

Definition unbounded (min : Z) : t := {| min_ := min; max_ := u32_max |}.

Definition bounded (min max : Z) : t := {| min_ := min; max_ := max |}.

Definition min (l : t) : Z := min_ l.

Definition max (l : t) : option Z :=
  if max_ l =? u32_max then None else Some (max_ l).

End Limit.

(** ** [cobalt/bc/internal/types.h] *)

Definition read_val_ty : Read ValueType :=
  let* b := read_byte in
  let v := byte.unsigned b in
  if v =? 0x6F then ret extern_ref
  else if v =? 0x70 then ret func_ref
  else if v =? 0x7B then ret v128
  else if v =? 0x7C then ret f64
  else if v =? 0x7D then ret f32
  else if v =? 0x7E then ret i64
  else if v =? 0x7F then ret i32
  else throw (UnknownTypeTag b).

(** ** [cobalt/utility/multi_array.h] *)

(** The view [std::span{data + begin, length}] over a vector; [None] when it
    would reach past the vector's end. *)
Definition span_of {T : Type} (data : list T) (begin length : Z) : option (list T) :=
  if begin + length <=? Z.of_nat (List.length data)
  then Some (take (Z.to_nat length) (drop (Z.to_nat begin) data))
  else None.

Module SmallMultiArray.
Section SmallMultiArray.
Context {T : Type}.
Variable N : nat.

(** [array_] is the backing vector, [indices_] the [std::array<u32, N>]
    of end offsets. *)
Record t : Type := { array_ : list T; indices_ : list Z }.

(** [sub_vec(i)]; [None] is the failed [assert] (or the read outside
    [indices_] behind it).  [begin] and [length] are [u32]. *)
Definition sub_vec (a : t) (i : nat) : option (list T) :=
  if (i <? N)%nat then
    match (if (i =? 0)%nat then Some 0 else indices_ a !! (i - 1)%nat),
          indices_ a !! i with
    | Some begin, Some e => span_of (array_ a) begin (wrap32 (e - begin))
    | _, _ => None
    end
  else None.

End SmallMultiArray.
End SmallMultiArray.

Module MultiArrayBuilder.
Section MultiArrayBuilder.
Context {T : Type}.
Variable N : nat.

Record t : Type :=
  { underlying_ : list T; indices_ : list Z; current_index_ : nat }.

(** The default member initialisers. *)
Definition new : t :=
  {| underlying_ := []; indices_ := replicate N 0; current_index_ := 0 |}.

Definition push (value : T) (b : t) : t :=
  {| underlying_ := underlying_ b ++ [value];
     indices_ := indices_ b;
     current_index_ := current_index_ b |}.

(** [None] is the failed [assert(current_index_ < N)]; the size of the
    vector is narrowed to [u32] by the assignment. *)
Definition end_sub_vec (b : t) : option t :=
  if (current_index_ b <? N)%nat then
    Some {| underlying_ := underlying_ b;
            indices_ := <[current_index_ b := wrap32 (Z.of_nat (length (underlying_ b)))]>
                          (indices_ b);
            current_index_ := S (current_index_ b) |}
  else None.

(** [build()] is left out: the statement in its body constructs a class
    named [MultiArray], which is declared nowhere, so the member cannot be
    instantiated.  What the builder has recorded is in its two members. *)

(** A call made on a builder, and a sequence of such calls. *)
Inductive call : Type :=
| Push (value : T)
| EndSubVec.

Definition do_call (c : call) (b : t) : option t :=
  match c with
  | Push value => Some (push value b)
  | EndSubVec => end_sub_vec b
  end.

Fixpoint do_calls (cs : list call) (b : t) : option t :=
  match cs with
  | [] => Some b
  | c :: cs' =>
      match do_call c b with
      | Some b' => do_calls cs' b'
      | None => None
      end
  end.

(** What a sequence of calls is meant to describe: the elements pushed
    between consecutive closes ([cur] holds the elements pushed since the
    last close), and all the elements pushed. *)
Fixpoint pushed_between (cs : list call) (cur : list T) : list (list T) :=
  match cs with
  | [] => []
  | Push value :: cs' => pushed_between cs' (cur ++ [value])
  | EndSubVec :: cs' => cur :: pushed_between cs' []
  end.

Fixpoint pushed (cs : list call) : list T :=
  match cs with
  | [] => []
  | Push value :: cs' => value :: pushed cs'
  | EndSubVec :: cs' => pushed cs'
  end.

(** The elements pushed since the last close. *)
Fixpoint unclosed (cs : list call) (cur : list T) : list T :=
  match cs with
  | [] => cur
  | Push value :: cs' => unclosed cs' (cur ++ [value])
  | EndSubVec :: cs' => unclosed cs' []
  end.

End MultiArrayBuilder.
End MultiArrayBuilder.

Arguments MultiArrayBuilder.EndSubVec {T}.

(** [FunctionType] holds a [SmallMultiArray<ValueType, 2, 16>].  The class
    declares no constructor, and nothing below makes one of these: the type
    is here as the return type of [read_function_ty]. *)
Record FunctionType : Type := { vec_ : @SmallMultiArray.t ValueType }.

(** The body of [read_function_ty] is [expect(0x60);] and nothing else:
    control then flows off the end of a function that returns a
    [FunctionType]. *)
Definition read_function_ty : Read FunctionType :=
  let* _ := expect Byte.x60 in
  undefined.

(** ** The LEB128 format

    What the decoder is measured against: the bytes of an encoding, read
    as the format describes them, and the encoders. *)

(** The continuation bit of a byte, and its seven value bits. *)
Definition continues (b : byte) : bool :=
  has_bits (byte.unsigned b) internal.leb128_continue.

Definition payload (b : byte) : Z :=
  Z.land (byte.unsigned b) internal.leb128_value.

(** The sign bit (bit 6) of a byte. *)
Definition sign_bit (b : byte) : bool :=
  has_bits (byte.unsigned b) internal.leb128_sign.

(** The integer whose 7-bit groups, low-order group first, are the value
    bits of the bytes. *)
Fixpoint groups (bs : list byte) : Z :=
  match bs with
  | [] => 0
  | b :: bs' => Z.lor (payload b) (Z.shiftl (groups bs') 7)
  end.

(** [ceil(N / 7)], the most bytes an encoding of a width-[N] integer has. *)
Definition max_bytes (N : Z) : Z := (N + 6) / 7.

(** Modelled from the spec: the encoder.  The repository has a decoder
    only (its tests read encodings from fixture files); this is the LEB128
    encoding the spec refers to, seven value bits a byte, low-order group
    first, the high-order bit set on every byte but the last, and no more
    bytes than the value needs.  [more] bounds the bytes that may still
    follow the one being written. *)
Fixpoint encode_unsigned_groups (more : nat) (v : Z) : list byte :=
  let group := Z.land v 0x7F in
  let v' := Z.shiftr v 7 in
  match more with
  | O => [byte.of_Z group]
  | S more' =>
      if v' =? 0 then [byte.of_Z group]
      else byte.of_Z (Z.lor group 0x80) :: encode_unsigned_groups more' v'
  end.

Definition encode_unsigned (v : Z) : list byte := encode_unsigned_groups 9 v.

(** Modelled from the spec: the signed encoder, which is missing from the
    repository as the unsigned one is.  The shift is arithmetic, and the
    last byte is the first one whose bit 6 agrees with the sign of all the
    bits that are left. *)
Fixpoint encode_signed_groups (more : nat) (v : Z) : list byte :=
  let group := Z.land v 0x7F in
  let v' := Z.shiftr v 7 in
  let sign := has_bits group 0x40 in
  match more with
  | O => [byte.of_Z group]
  | S more' =>
      if (v' =? 0) && negb sign || (v' =? -1) && sign then [byte.of_Z group]
      else byte.of_Z (Z.lor group 0x80) :: encode_signed_groups more' v'
  end.

Definition encode_signed (v : Z) : list byte := encode_signed_groups 9 v.


(** ** The other readers of [cobalt/bc/internal/values.h]

    [read_u8] to [read_i64] return the result of the 64-bit decoder through
    the conversion to their return type. *)

(** The conversion of an integer to a signed [w]-bit type. *)
Definition narrow_signed (w x : Z) : Z := (x + 2 ^ (w - 1)) mod 2 ^ w - 2 ^ (w - 1).

Definition read_u8 : Read Z :=
  let* v := read_leb128_unsigned 8 in ret (wrap 8 v).

Definition read_u16 : Read Z :=
  let* v := read_leb128_unsigned 16 in ret (wrap 16 v).

Definition read_u32 : Read Z :=
  let* v := read_leb128_unsigned 32 in ret (wrap32 v).

Definition read_u64 : Read Z := read_leb128_unsigned 64.

Definition read_i8 : Read Z :=
  let* v := read_leb128_signed 8 in ret (narrow_signed 8 v).

Definition read_i16 : Read Z :=
  let* v := read_leb128_signed 16 in ret (narrow_signed 16 v).

Definition read_i32 : Read Z :=
  let* v := read_leb128_signed 32 in ret (narrow_signed 32 v).

Definition read_i64 : Read Z := read_leb128_signed 64.

(** The readers of the unsigned and of the signed integer types, with the
    width of each. *)
Definition unsigned_readers : list (Z * Read Z) :=
  [(8, read_u8); (16, read_u16); (32, read_u32); (64, read_u64)].

Definition signed_readers : list (Z * Read Z) :=
  [(8, read_i8); (16, read_i16); (32, read_i32); (64, read_i64)].

(** The loop of [read_name]; a [char] is the byte it is cast from. *)
Fixpoint read_name_loop (todo : nat) (out : list byte) : Read (list byte) :=
  match todo with
  | O => ret out
  | S todo' =>
      let* b := read_byte in
      read_name_loop todo' (out ++ [b])
  end.

Definition read_name : Read (list byte) :=
  let* len := read_u32 in
  read_name_loop (Z.to_nat len) [].

(** ** Reference types ([cobalt/ast/types.h]) *)

Module RefType.

Inductive t : Type := func_ref | extern_ref.

Definition value (r : t) : Z :=
  match r with
  | func_ref => 0x70
  | extern_ref => 0x6F
  end.

End RefType.

(** [static_cast<RefType>(ty)] where it gives an enumerator of [RefType]. *)
Definition static_cast_RefType (ty : ValueType) : option RefType.t :=
  if ValueType_value ty =? RefType.value RefType.func_ref then Some RefType.func_ref
  else if ValueType_value ty =? RefType.value RefType.extern_ref then Some RefType.extern_ref
  else None.

Definition is_ref_ty (ty : ValueType) : bool :=
  match ty with
  | func_ref | extern_ref => true
  | _ => false
  end.

(** [None] is the failed [assert]. *)
Definition into_ref_ty (ty : ValueType) : option RefType.t :=
  if is_ref_ty ty then static_cast_RefType ty else None.

(** [None] is [std::nullopt]. *)
Definition try_into_ref_ty (ty : ValueType) : option RefType.t :=
  if is_ref_ty ty then static_cast_RefType ty else None.

(** ** [tests/bc/leb128.test.cc]

    The two tests that run over the lines of a fixture file: for a line
    with the expected [value] and the bytes of its encoding, whether every
    [EXPECT_EQ] made for it holds. *)

Definition expect_eq (run : Outcome Z * WasmBytecodeReaderBase) (value : Z) : bool :=
  match run with
  | (Ok v, _) => v =? value
  | _ => false
  end.

(** [within_bounds_of<T>] for the signed type [T] of [bits] bits. *)
Definition within_bounds_of (bits value : Z) : bool :=
  (- 2 ^ (bits - 1) <=? value) && (value <=? 2 ^ (bits - 1) - 1).

Definition unsigned_per_line_test (value : Z) (bytes : list byte) : bool :=
  let check (limit N : Z) :=
    if value <? limit
    then expect_eq (read_leb128_unsigned N {| remaining_ := bytes |}) value
    else true in
  check (2 ^ 8 - 1) 8 && check (2 ^ 16 - 1) 16 && check 8388607 23
  && check (2 ^ 32 - 1) 32 && check 4503599627370495 52 && check (2 ^ 64 - 1) 64.

Definition signed_per_line_test (value : Z) (bytes : list byte) : bool :=
  let check (N : Z) :=
    if within_bounds_of N value
    then expect_eq (read_leb128_signed N {| remaining_ := bytes |}) value
    else true in
  check 8 && check 16 && check 32 && check 64.

(** * Properties *)

(** Closes the goals that are decided by running the model. *)
Ltac run := vm_compute; reflexivity.

(** ** The byte cursor *)

Lemma consume_nil :
  consume {| remaining_ := [] |} = (Throw UnexpectedEndOfInput, {| remaining_ := [] |}).
Proof. reflexivity. Qed.

Lemma consume_cons (b : byte) (rest : list byte) :
  consume {| remaining_ := b :: rest |} = (Ok b, {| remaining_ := rest |}).
Proof. reflexivity. Qed.

(** C4: [consume()] throws the unexpected-end error exactly when no byte
    remains (and it throws no other error); otherwise it returns the first
    remaining byte and leaves the cursor one byte further; the access
    outside the span is never reached. *)
Theorem consume_spec (r : WasmBytecodeReaderBase) :
  (forall e, fst (consume r) = Throw e <->
             e = UnexpectedEndOfInput /\ length (remaining_ r) = 0%nat) /\
  match remaining_ r with
  | [] => consume r = (Throw UnexpectedEndOfInput, r)
  | b :: rest => consume r = (Ok b, {| remaining_ := rest |})
  end /\
  fst (consume r) <> Undefined /\
  fst (consume r) <> OutOfFuel.
Proof.
  destruct r as [[|b rest]]; cbn.
  - repeat split; try discriminate; try congruence.
    by intros [-> _].
  - repeat split; try discriminate. intros [_ E]. discriminate E.
Qed.

(** The loop of [consume_n] on an input that is too short: the bytes that
    are there are consumed one by one, and the call after the last of them
    throws. *)
Lemma consume_n_loop_short (bs : list byte) :
  forall (todo i : nat) (buf : list byte),
    (length bs < todo)%nat ->
    consume_n_loop todo i buf {| remaining_ := bs |}
    = (Throw UnexpectedEndOfInput, {| remaining_ := [] |}).
Proof.
  induction bs as [|b bs IH]; intros todo i buf Hlen.
  - destruct todo as [|todo]; [inversion Hlen | reflexivity].
  - destruct todo as [|todo]; [inversion Hlen |].
    cbn [consume_n_loop]. unfold bind. rewrite consume_cons.
    apply IH. cbn [length] in Hlen. lia.
Qed.

(** When enough bytes are there, [consume_n] returns the first [N] of them
    and leaves the rest. *)
Lemma consume_n_loop_enough (todo : nat) :
  forall (i : nat) (buf bs : list byte),
    (todo <= length bs)%nat ->
    (i + todo <= length buf)%nat ->
    consume_n_loop todo i buf {| remaining_ := bs |}
    = (Ok (take i buf ++ take todo bs ++ drop (i + todo) buf),
       {| remaining_ := drop todo bs |}).
Proof.
  induction todo as [|todo IH]; intros i buf bs Hbs Hbuf.
  - rewrite Nat.add_0_r, take_0, drop_0. cbn [app]. by rewrite take_drop.
  - destruct bs as [|b bs]; [inversion Hbs |].
    cbn [consume_n_loop]. unfold bind. rewrite consume_cons.
    cbn [length] in Hbs.
    rewrite IH by (rewrite ?length_insert; lia).
    f_equal. f_equal.
    rewrite take_S_r with (x := b) by (apply list_lookup_insert_eq; lia).
    rewrite take_insert_ge by lia.
    rewrite drop_insert_lt by lia.
    rewrite <- app_assoc, Nat.add_succ_r. reflexivity.
Qed.

Lemma consume_n_enough (N : nat) (bs : list byte) :
  (N <= length bs)%nat ->
  consume_n N {| remaining_ := bs |} = (Ok (take N bs), {| remaining_ := drop N bs |}).
Proof.
  intros H. unfold consume_n.
  rewrite consume_n_loop_enough by (rewrite ?length_replicate; lia).
  cbn. rewrite drop_ge by (rewrite length_replicate; lia).
  by rewrite app_nil_r.
Qed.

(** C5, as the code has it: with fewer than [N] bytes remaining
    [consume_n<N>()] throws the unexpected-end error, and it does so after
    consuming every byte that was there: the cursor is left at the end of
    the input, which is where it was before only when nothing remained. *)
Theorem consume_n_short (N : nat) (r : WasmBytecodeReaderBase) :
  (length (remaining_ r) < N)%nat ->
  consume_n N r = (Throw UnexpectedEndOfInput, {| remaining_ := [] |}) /\
  (snd (consume_n N r) = r <-> length (remaining_ r) = 0%nat).
Proof.
  intros H. destruct r as [bs]. cbn in H.
  unfold consume_n. rewrite consume_n_loop_short by exact H. split; [done|].
  cbn. destruct bs; split; intros E; try done.
Qed.

Lemma consume_n_short_witness :
  consume_n 2 {| remaining_ := [Byte.x01] |}
  = (Throw UnexpectedEndOfInput, {| remaining_ := [] |}).
Proof.
  apply (consume_n_short 2 {| remaining_ := [Byte.x01] |}). cbn. lia.
Defined.

(** C5 as stated fails: one byte remains, two are asked for, and the failed
    call leaves the cursor behind that byte. *)
Lemma consume_n_not_atomic :
  let r := {| remaining_ := [Byte.x01] |} in
  (length (remaining_ r) < 2)%nat /\
  fst (consume_n 2 r) = Throw UnexpectedEndOfInput /\
  snd (consume_n 2 r) <> r.
Proof. cbn. repeat split; [lia | discriminate]. Qed.

(** ** Value types and function types *)

(** C6: on a non-empty input [read_val_ty] consumes exactly the first byte;
    it returns the value type whose tag that byte is, and throws the
    unknown-tag error, carrying the byte, for each of the other 249 byte
    values.  The type returned is the one whose enumerator has the byte as
    its value. *)
Theorem read_val_ty_spec (b : byte) (rest : list byte) :
  read_val_ty {| remaining_ := b :: rest |}
  = (match b with
     | Byte.x7f => Ok i32
     | Byte.x7e => Ok i64
     | Byte.x7d => Ok f32
     | Byte.x7c => Ok f64
     | Byte.x7b => Ok v128
     | Byte.x70 => Ok func_ref
     | Byte.x6f => Ok extern_ref
     | _ => Throw (UnknownTypeTag b)
     end,
     {| remaining_ := rest |})
  /\ (forall ty, fst (read_val_ty {| remaining_ := b :: rest |}) = Ok ty <->
                 ValueType_value ty = byte.unsigned b).
Proof.
  split.
  - destruct b; reflexivity.
  - intros ty. destruct b; destruct ty; split; intros E; try reflexivity;
      vm_compute in E; discriminate E.
Qed.

(** The marker check of [read_function_ty], by the first byte. *)
Lemma read_function_ty_cons (b : byte) (rest : list byte) :
  read_function_ty {| remaining_ := b :: rest |}
  = (if byte.unsigned b =? 0x60 then Undefined else Throw (UnexpectedByte Byte.x60 b),
     {| remaining_ := rest |}).
Proof.
  unfold read_function_ty, expect, bind. rewrite consume_cons.
  change (byte.unsigned Byte.x60) with 0x60.
  by destruct (byte.unsigned b =? 0x60).
Qed.

(** C7, what the code does: on the encoding of [[i32, i64] -> [f32]]
    [read_function_ty] consumes the marker [0x60] and then runs off its end
    without reading the two lists: no input makes it return a
    [FunctionType].  A first byte other than [0x60] does make it throw the
    unexpected-byte error. *)
Theorem read_function_ty_unfinished :
  read_function_ty
    {| remaining_ := [Byte.x60; Byte.x02; Byte.x7f; Byte.x7e; Byte.x01; Byte.x7d] |}
  = (Undefined, {| remaining_ := [Byte.x02; Byte.x7f; Byte.x7e; Byte.x01; Byte.x7d] |})
  /\ (forall r f, fst (read_function_ty r) <> Ok f)
  /\ (forall b rest,
        read_function_ty {| remaining_ := b :: rest |}
        = (if byte.unsigned b =? 0x60 then Undefined
           else Throw (UnexpectedByte Byte.x60 b),
           {| remaining_ := rest |})).
Proof.
  split; [reflexivity | split].
  - intros [[|b rest]] f; [discriminate |].
    rewrite read_function_ty_cons. cbn. by destruct (byte.unsigned b =? 0x60).
  - apply read_function_ty_cons.
Qed.

(** ** Limits *)

(** C8, as the code has it: an explicit maximum other than [0xFFFFFFFF] is
    given back by [max()] and is told apart from the unbounded limit; the
    explicit maximum [0xFFFFFFFF] is accepted by [bounded] and yields the
    very limit that [unbounded] yields, for which [max()] is empty. *)
Theorem Limit_max_bounded (min m : Z) :
  m <> u32_max ->
  Limit.max (Limit.bounded min m) = Some m /\
  Limit.max (Limit.bounded min m) <> Limit.max (Limit.unbounded min) /\
  Limit.max (Limit.unbounded min) = None /\
  Limit.bounded min u32_max = Limit.unbounded min /\
  Limit.min (Limit.bounded min m) = min.
Proof.
  intros Hm. unfold Limit.max, Limit.bounded, Limit.unbounded; cbn.
  destruct (Z.eqb_spec m u32_max) as [E|_]; [contradiction |].
  repeat split. discriminate.
Qed.

Lemma Limit_max_bounded_witness :
  Limit.max (Limit.bounded 1 65536) = Some 65536.
Proof.
  apply (Limit_max_bounded 1 65536). unfold u32_max. lia.
Defined.

(** C8 as stated fails: [bounded] accepts the maximum [0xFFFFFFFF], and the
    limit it builds has no maximum according to [max()]. *)
Lemma Limit_sentinel_confused :
  Limit.max (Limit.bounded 0 0xFFFFFFFF) = None /\
  Limit.max (Limit.bounded 0 0xFFFFFFFF) <> Some 0xFFFFFFFF /\
  Limit.bounded 0 0xFFFFFFFF = Limit.unbounded 0.
Proof. repeat split. discriminate. Qed.

(** * The LEB128 decoder *)

(** ** Bits and bytes *)

Lemma wrap64_land (x : Z) : wrap64 x = Z.land x (Z.ones 64).
Proof. unfold wrap64, wrap. by rewrite Z.land_ones. Qed.

Lemma wrap64_small (x : Z) : 0 <= x < 2 ^ 64 -> wrap64 x = x.
Proof. apply Z.mod_small. Qed.

Lemma wrap64_range (x : Z) : 0 <= wrap64 x < 2 ^ 64.
Proof. apply Z.mod_pos_bound. lia. Qed.

Lemma wrap64_lor (x y : Z) : wrap64 (Z.lor x y) = Z.lor (wrap64 x) (wrap64 y).
Proof. rewrite !wrap64_land. apply Z.land_lor_distr_l. Qed.

Lemma payload_mod (b : byte) : payload b = byte.unsigned b mod 128.
Proof. unfold payload. change internal.leb128_value with (Z.ones 7). by rewrite Z.land_ones. Qed.

Lemma payload_range (b : byte) : 0 <= payload b < 128.
Proof. rewrite payload_mod. apply Z.mod_pos_bound. lia. Qed.

Lemma continues_ge (b : byte) : continues b = (128 <=? byte.unsigned b).
Proof. destruct b; reflexivity. Qed.

Lemma sign_bit_payload (b : byte) : sign_bit b = (64 <=? payload b).
Proof. destruct b; reflexivity. Qed.

Lemma payload_shiftl_disjoint (b : byte) (x : Z) :
  Z.land (payload b) (Z.shiftl x 7) = 0.
Proof.
  rewrite payload_mod. change 128 with (2 ^ 7).
  apply Z.bits_inj'; intros i Hi. rewrite Z.land_spec, Z.bits_0.
  destruct (Z.lt_ge_cases i 7).
  - rewrite Z.shiftl_spec_low by assumption. apply andb_false_r.
  - by rewrite Z.mod_pow2_bits_high by lia.
Qed.

Lemma groups_cons_add (b : byte) (bs : list byte) :
  groups (b :: bs) = payload b + 128 * groups bs.
Proof.
  cbn [groups]. rewrite <- Z.add_nocarry_lor by apply payload_shiftl_disjoint.
  rewrite Z.shiftl_mul_pow2 by lia. change (2 ^ 7) with 128. lia.
Qed.

Lemma groups_range (bs : list byte) : 0 <= groups bs < 2 ^ (7 * Z.of_nat (length bs)).
Proof.
  induction bs as [|b bs IH]; [cbn; lia |].
  rewrite groups_cons_add. cbn [length].
  pose proof (payload_range b) as Hb.
  rewrite Nat2Z.inj_succ.
  replace (7 * Z.succ (Z.of_nat (length bs))) with (7 + 7 * Z.of_nat (length bs)) by lia.
  rewrite Z.pow_add_r by lia. change (2 ^ 7) with 128. lia.
Qed.

Lemma groups_app (xs ys : list byte) :
  groups (xs ++ ys) = Z.lor (groups xs) (Z.shiftl (groups ys) (7 * Z.of_nat (length xs))).
Proof.
  induction xs as [|x xs IH]; cbn [app groups length].
  - by rewrite Z.mul_0_r, Z.shiftl_0_r.
  - rewrite IH, Nat2Z.inj_succ, Z.shiftl_lor, Z.shiftl_shiftl by lia.
    rewrite Z.lor_assoc. do 2 f_equal. lia.
Qed.

(** ** The decoding loop *)

Lemma read_leb128_loop_nil (N : Z) (fuel : nat) (acc sh : Z) :
  read_leb128_loop N (S fuel) acc sh {| remaining_ := [] |}
  = (Throw UnexpectedEndOfInput, {| remaining_ := [] |}).
Proof. reflexivity. Qed.

Lemma read_leb128_loop_cons (N : Z) (fuel : nat) (acc sh : Z) (b : byte) (tl : list byte) :
  read_leb128_loop N (S fuel) acc sh {| remaining_ := b :: tl |}
  = let acc' := Z.lor acc (shl64 (payload b) sh) in
    let sh' := wrap64 (sh + 7) in
    if continues b && (sh' <? wrap64 N)
    then read_leb128_loop N fuel acc' sh' {| remaining_ := tl |}
    else if continues b
    then (Throw InvalidVarInt, {| remaining_ := tl |})
    else (Ok {| internal.result := acc';
                internal.shift := sh';
                internal.last_byte := byte.unsigned b |},
          {| remaining_ := tl |}).
Proof.
  cbn [read_leb128_loop]. unfold bind. rewrite consume_cons.
  fold (continues b). fold (payload b). cbv zeta.
  change internal.bits_per_iteration with 7.
  destruct (continues b), (wrap64 (sh + 7) <? wrap64 N); reflexivity.
Qed.

(** The bound on the iterations is never reached, and the decoder does
    nothing undefined, at any width. *)
Lemma read_leb128_loop_total (N : Z) (bs : list byte) :
  forall (fuel : nat) (acc sh : Z),
    (length bs < fuel)%nat ->
    fst (read_leb128_loop N fuel acc sh {| remaining_ := bs |}) <> OutOfFuel /\
    fst (read_leb128_loop N fuel acc sh {| remaining_ := bs |}) <> Undefined.
Proof.
  induction bs as [|b bs IH]; intros [|fuel] acc sh Hfuel;
    try (cbn in Hfuel; lia).
  - by rewrite read_leb128_loop_nil.
  - rewrite read_leb128_loop_cons. cbv zeta.
    destruct (continues b && (wrap64 (sh + 7) <? wrap64 N)).
    + apply IH. cbn in Hfuel. lia.
    + by destruct (continues b).
Qed.

Lemma read_leb128_internal_total (N : Z) (r : WasmBytecodeReaderBase) :
  fst (read_leb128_internal N r) <> OutOfFuel /\
  fst (read_leb128_internal N r) <> Undefined.
Proof. destruct r as [bs]. apply read_leb128_loop_total. cbn. lia. Qed.

Section Width.
Variable N : Z.
Hypothesis HN : 1 <= N <= 64.

Lemma wrap64_width : wrap64 N = N.
Proof. apply wrap64_small. lia. Qed.

(** The loop runs through a prefix of continuing bytes as long as the
    shift stays below the width, adding their groups to the accumulator. *)
Lemma read_leb128_loop_through (init : list byte) :
  forall (fuel : nat) (acc sh : Z) (tl : list byte),
    Forall (fun b => continues b = true) init ->
    0 <= sh ->
    sh + 7 * Z.of_nat (length init) < N ->
    read_leb128_loop N (length init + fuel) acc sh {| remaining_ := init ++ tl |}
    = read_leb128_loop N fuel
        (Z.lor acc (shl64 (groups init) sh))
        (sh + 7 * Z.of_nat (length init))
        {| remaining_ := tl |}.
Proof.
  induction init as [|c init IH]; intros fuel acc sh tl Hall Hsh Hlt.
  - cbn [length app groups Nat.add]. unfold shl64. rewrite Z.shiftl_0_l.
    change (wrap64 0) with 0. rewrite Z.lor_0_r. do 2 f_equal. cbn. lia.
  - inversion Hall as [|? ? Hc Hall']; subst.
    cbn [length app Nat.add] in *. rewrite Nat2Z.inj_succ in *.
    rewrite read_leb128_loop_cons. cbv zeta.
    rewrite Hc, wrap64_width, (wrap64_small (sh + 7)) by lia.
    replace (sh + 7 <? N) with true by (symmetry; apply Z.ltb_lt; lia).
    cbn [andb]. rewrite IH by (try assumption; lia).
    f_equal; [| lia].
    cbn [groups]. unfold shl64. rewrite <- Z.lor_assoc, <- wrap64_lor. do 2 f_equal.
    rewrite Z.shiftl_lor, Z.shiftl_shiftl by lia. do 2 f_equal. lia.
Qed.

Lemma groups_singleton (b : byte) : groups [b] = payload b.
Proof. cbn [groups]. by rewrite Z.shiftl_0_l, Z.lor_0_r. Qed.

(** The three ways the decoder ends: at a byte that does not continue, at
    a continuing byte that brings the shift to the width, at the end of the
    input. *)
Lemma read_leb128_internal_ok (init : list byte) (b : byte) (rest : list byte) :
  Forall (fun c => continues c = true) init ->
  continues b = false ->
  7 * Z.of_nat (length init) < N ->
  read_leb128_internal N {| remaining_ := init ++ b :: rest |}
  = (Ok {| internal.result := wrap64 (groups (init ++ [b]));
           internal.shift := 7 * (Z.of_nat (length init) + 1);
           internal.last_byte := byte.unsigned b |},
     {| remaining_ := rest |}).
Proof.
  intros Hall Hb Hlt. unfold read_leb128_internal. cbn [remaining_].
  rewrite length_app. cbn [length].
  replace (S (length init + S (length rest)))
    with (length init + S (S (length rest)))%nat by lia.
  rewrite read_leb128_loop_through by (try assumption; lia).
  rewrite read_leb128_loop_cons. cbv zeta. rewrite Hb. cbn [andb].
  rewrite wrap64_small by lia.
  do 2 f_equal. f_equal; [| lia].
  rewrite groups_app, groups_singleton, wrap64_lor. unfold shl64.
  by rewrite Z.lor_0_l, Z.shiftl_0_r, Z.add_0_l.
Qed.

Lemma read_leb128_internal_invalid (init : list byte) (b : byte) (rest : list byte) :
  Forall (fun c => continues c = true) init ->
  continues b = true ->
  7 * Z.of_nat (length init) < N <= 7 * (Z.of_nat (length init) + 1) ->
  read_leb128_internal N {| remaining_ := init ++ b :: rest |}
  = (Throw InvalidVarInt, {| remaining_ := rest |}).
Proof.
  intros Hall Hb Hlt. unfold read_leb128_internal. cbn [remaining_].
  rewrite length_app. cbn [length].
  replace (S (length init + S (length rest)))
    with (length init + S (S (length rest)))%nat by lia.
  rewrite read_leb128_loop_through by (try assumption; lia).
  rewrite read_leb128_loop_cons. cbv zeta. rewrite Hb. cbn [andb].
  rewrite wrap64_width, wrap64_small by lia.
  replace (0 + 7 * Z.of_nat (length init) + 7 <? N) with false
    by (symmetry; apply Z.ltb_ge; lia).
  reflexivity.
Qed.

Lemma read_leb128_internal_end (init : list byte) :
  Forall (fun c => continues c = true) init ->
  7 * Z.of_nat (length init) < N ->
  read_leb128_internal N {| remaining_ := init |}
  = (Throw UnexpectedEndOfInput, {| remaining_ := [] |}).
Proof.
  intros Hall Hlt. unfold read_leb128_internal. cbn [remaining_].
  replace (S (length init)) with (length init + 1)%nat by lia.
  rewrite <- (app_nil_r init) at 2.
  rewrite read_leb128_loop_through by (try assumption; lia).
  apply read_leb128_loop_nil.
Qed.

(** Every input splits into the continuing bytes the loop runs through and
    the place where it ends. *)
Lemma input_split (bs : list byte) :
  forall k : Z,
    0 <= k -> 7 * k < N ->
    exists init tl,
      bs = init ++ tl /\
      Forall (fun c => continues c = true) init /\
      7 * (k + Z.of_nat (length init)) < N /\
      match tl with
      | [] => True
      | b :: _ => continues b = false \/ N <= 7 * (k + Z.of_nat (length init) + 1)
      end.
Proof.
  induction bs as [|b bs IH]; intros k Hk Hlt.
  - exists [], []. cbn. repeat split; [constructor | lia].
  - destruct (continues b) eqn:Hb.
    + destruct (Z.lt_ge_cases (7 * (k + 1)) N) as [Hnext|Hnext].
      * destruct (IH (k + 1)) as (init & tl & -> & Hall & Hlen & Htl); [lia | lia |].
        exists (b :: init), tl. cbn [length]. rewrite Nat2Z.inj_succ.
        repeat split; [by constructor | lia |].
        destruct tl; [done |]. destruct Htl; [by left | right; lia].
      * exists [], (b :: bs). cbn. repeat split; [constructor | lia | right; lia].
    + exists [], (b :: bs). cbn. repeat split; [constructor | lia | by left].
Qed.

(** Which of the three it is, for any input. *)
Lemma read_leb128_internal_cases (bs : list byte) :
  exists init tl,
    bs = init ++ tl /\
    Forall (fun c => continues c = true) init /\
    7 * Z.of_nat (length init) < N /\
    match tl with
    | [] =>
        read_leb128_internal N {| remaining_ := bs |}
        = (Throw UnexpectedEndOfInput, {| remaining_ := [] |})
    | b :: rest =>
        if continues b
        then N <= 7 * (Z.of_nat (length init) + 1) /\
             read_leb128_internal N {| remaining_ := bs |}
             = (Throw InvalidVarInt, {| remaining_ := rest |})
        else read_leb128_internal N {| remaining_ := bs |}
             = (Ok {| internal.result := wrap64 (groups (init ++ [b]));
                      internal.shift := 7 * (Z.of_nat (length init) + 1);
                      internal.last_byte := byte.unsigned b |},
                {| remaining_ := rest |})
    end.
Proof.
  destruct (input_split bs 0) as (init & tl & -> & Hall & Hlen & Htl); [lia | lia |].
  exists init, tl. rewrite Z.add_0_l in *. repeat split; [assumption | lia |].
  destruct tl as [|b rest].
  - rewrite app_nil_r. by apply read_leb128_internal_end.
  - destruct (continues b) eqn:Hb.
    + destruct Htl as [Htl|Htl]; [discriminate |].
      split; [lia |]. apply read_leb128_internal_invalid; [assumption | assumption | lia].
    + by apply read_leb128_internal_ok.
Qed.

End Width.

Lemma max_bytes_spec (N k : Z) : 1 <= N -> (7 * k < N <-> k < max_bytes N).
Proof. unfold max_bytes. intros HN. Z.div_mod_to_equations. lia. Qed.

(** C1: at a width between 1 and 64 the unsigned decode runs through the
    leading bytes whose continuation bit is set while the shift is below
    the width, and ends at the first byte whose continuation bit is clear,
    or at the byte that brings the shift to the width, whichever is first in
    the input (or at the end of the input, if that comes before either).
    It throws the invalid-varint error exactly when the last byte it read
    has the continuation bit set and the shift has reached the width.  It
    never reads more than [ceil(N / 7)] bytes, which is 10 at width 64: it
    succeeds on an encoding of that many bytes and fails when that many
    leading bytes all have the continuation bit set. *)
Theorem read_leb128_unsigned_stops (N : Z) (bs : list byte) :
  1 <= N <= 64 ->
  let run := read_leb128_unsigned N {| remaining_ := bs |} in
  (exists init tl,
     bs = init ++ tl /\
     Forall (fun c => continues c = true) init /\
     7 * Z.of_nat (length init) < N /\
     match tl with
     | [] => run = (Throw UnexpectedEndOfInput, {| remaining_ := [] |})
     | b :: rest =>
         if continues b
         then N <= 7 * (Z.of_nat (length init) + 1) /\
              run = (Throw InvalidVarInt, {| remaining_ := rest |})
         else run = (Ok (wrap64 (groups (init ++ [b]))), {| remaining_ := rest |})
     end) /\
  (fst run = Throw InvalidVarInt <->
   exists pre rest,
     bs = pre ++ rest /\ snd run = {| remaining_ := rest |} /\
     Forall (fun c => continues c = true) pre /\
     7 * (Z.of_nat (length pre) - 1) < N <= 7 * Z.of_nat (length pre)) /\
  Z.of_nat (length bs) - Z.of_nat (length (remaining_ (snd run))) <= max_bytes N /\
  (forall init b rest,
     bs = init ++ b :: rest ->
     Z.of_nat (length init) < max_bytes N ->
     Forall (fun c => continues c = true) init ->
     continues b = false ->
     run = (Ok (wrap64 (groups (init ++ [b]))), {| remaining_ := rest |})) /\
  (forall pre rest,
     bs = pre ++ rest ->
     Z.of_nat (length pre) = max_bytes N ->
     Forall (fun c => continues c = true) pre ->
     run = (Throw InvalidVarInt, {| remaining_ := rest |})) /\
  (N = 64 -> max_bytes N = 10).
Proof.
  intros HN run.
  assert (forall init b rest,
            bs = init ++ b :: rest ->
            Z.of_nat (length init) < max_bytes N ->
            Forall (fun c => continues c = true) init ->
            continues b = false ->
            run = (Ok (wrap64 (groups (init ++ [b]))), {| remaining_ := rest |})) as Hok.
  { intros init b rest -> Hlen Hall Hb. subst run. unfold read_leb128_unsigned, bind.
    rewrite read_leb128_internal_ok; [reflexivity | assumption..|].
    by apply max_bytes_spec; [lia |]. }
  assert (forall pre rest,
            bs = pre ++ rest ->
            7 * (Z.of_nat (length pre) - 1) < N <= 7 * Z.of_nat (length pre) ->
            Forall (fun c => continues c = true) pre ->
            run = (Throw InvalidVarInt, {| remaining_ := rest |})) as Hbad.
  { intros pre rest -> Hlen Hall. subst run. unfold read_leb128_unsigned, bind.
    destruct (exists_last (l := pre)) as (init & b & ->).
    { intros ->. cbn in Hlen. lia. }
    rewrite length_app, Nat2Z.inj_add in Hlen. cbn in Hlen.
    apply Forall_app in Hall as [Hall Hb]. inversion Hb; subst.
    rewrite <- app_assoc. cbn [app].
    rewrite read_leb128_internal_invalid; [reflexivity | assumption..|]. lia. }
  destruct (read_leb128_internal_cases N HN bs) as (init & tl & E & Hall & Hlen & Htl).
  assert (run = let (o, r') := read_leb128_internal N {| remaining_ := bs |} in
                match o with
                | Ok p => (Ok (internal.result p), r')
                | Throw e => (Throw e, r')
                | Undefined => (Undefined, r')
                | OutOfFuel => (OutOfFuel, r')
                end) as Hrun.
  { subst run. unfold read_leb128_unsigned, bind, ret.
    by destruct (read_leb128_internal N _) as [[] ?]. }
  split; [| split; [| split; [| split; [| split]]]].
  - exists init, tl. repeat split; [assumption.. |].
    destruct tl as [|b rest]; [| destruct (continues b)];
      rewrite Hrun; [| destruct Htl as [? Htl] |]; rewrite Htl; by repeat split.
  - split.
    + intros Hfst. destruct tl as [|b rest]; [| destruct (continues b) eqn:Hb].
      * rewrite Hrun, Htl in Hfst. discriminate.
      * destruct Htl as [Hge Htl]. exists (init ++ [b]), rest.
        rewrite Hrun, Htl, length_app, Nat2Z.inj_add. cbn [length snd].
        split; [by rewrite E, <- app_assoc |].
        split; [reflexivity |].
        split; [| lia].
        apply Forall_app. split; [assumption | by constructor].
      * rewrite Hrun, Htl in Hfst. discriminate.
    + intros (pre & rest & Ebs & _ & Hpre & Hlenpre).
      by rewrite (Hbad pre rest).
  - rewrite Hrun. subst bs. rewrite length_app, Nat2Z.inj_add.
    apply (max_bytes_spec N) in Hlen; [| lia].
    destruct tl as [|b rest]; [| destruct (continues b)];
      [| destruct Htl as [? Htl] |]; rewrite Htl; cbn; lia.
  - exact Hok.
  - intros pre rest Ebs Hlenpre Hpre. apply (Hbad pre rest); [assumption | | assumption].
    pose proof (max_bytes_spec N (Z.of_nat (length pre) - 1)) as H1.
    pose proof (max_bytes_spec N (Z.of_nat (length pre))) as H2. lia.
  - intros ->. reflexivity.
Qed.

Lemma read_leb128_unsigned_stops_witness :
  read_leb128_unsigned 64
    {| remaining_ := [Byte.xc9; Byte.xf4; Byte.x9e; Byte.xdd; Byte.x8e; Byte.xd8;
                      Byte.xa4; Byte.xe5; Byte.xef; Byte.xef; Byte.x01] |}
  = (Throw InvalidVarInt, {| remaining_ := [Byte.x01] |}).
Proof.
  destruct (read_leb128_unsigned_stops 64
              [Byte.xc9; Byte.xf4; Byte.x9e; Byte.xdd; Byte.x8e; Byte.xd8;
               Byte.xa4; Byte.xe5; Byte.xef; Byte.xef; Byte.x01])
    as (_ & _ & _ & _ & Hbad & _); [lia |].
  apply (Hbad [Byte.xc9; Byte.xf4; Byte.x9e; Byte.xdd; Byte.x8e; Byte.xd8;
               Byte.xa4; Byte.xe5; Byte.xef; Byte.xef] [Byte.x01]);
    [reflexivity | reflexivity | repeat constructor].
Defined.

(** The cases of [tests/bc/leb128.test.cc]. *)
Example LEB128UnsignedSingle :
  read_leb128_unsigned 64 {| remaining_ := [Byte.x22] |} = (Ok 34, {| remaining_ := [] |}).
Proof. run. Qed.

Example LEB128UnsignedMultiple :
  read_leb128_unsigned 64 {| remaining_ := [Byte.xe5; Byte.x8e; Byte.x26] |}
  = (Ok 624485, {| remaining_ := [] |}).
Proof. run. Qed.

Example LEB128UnsignedMany :
  read_leb128_unsigned 64
    {| remaining_ := [Byte.x9d; Byte.xb3; Byte.x94; Byte.xfa; Byte.x01] |}
  = (Ok 524622237, {| remaining_ := [] |}).
Proof. run. Qed.

Example LEB128UnsignedMax :
  read_leb128_unsigned 64
    {| remaining_ := [Byte.xc9; Byte.xf4; Byte.x9e; Byte.xdd; Byte.x8e; Byte.xd8;
                      Byte.xa4; Byte.xe5; Byte.xef; Byte.x01] |}
  = (Ok 17278784277645343305, {| remaining_ := [] |}).
Proof. run. Qed.

Example LEB128UnsignedTooManyBytesThrows :
  fst (read_leb128_unsigned 64
         {| remaining_ := [Byte.xc9; Byte.xf4; Byte.x9e; Byte.xdd; Byte.x8e; Byte.xd8;
                           Byte.xa4; Byte.xe5; Byte.xef; Byte.xef; Byte.x01] |})
  = Throw InvalidVarInt.
Proof. run. Qed.

(** C10: the unsigned decode does not look at the high bits of the last
    group.  What a successful decode at width [N] returns is below
    [2 ^ (7 * ceil(N / 7))] (and below [2 ^ 64]), and it need not be below
    [2 ^ N]: at width 8 the bytes [0xFF 0x7F] decode to 16383. *)
Theorem read_leb128_unsigned_bound
  (N : Z) (bs : list byte) (v : Z) (r' : WasmBytecodeReaderBase) :
  1 <= N <= 64 ->
  read_leb128_unsigned N {| remaining_ := bs |} = (Ok v, r') ->
  0 <= v < 2 ^ (7 * max_bytes N) /\
  v < 2 ^ 64 /\
  read_leb128_unsigned 8 {| remaining_ := [Byte.xff; Byte.x7f] |}
  = (Ok 16383, {| remaining_ := [] |}) /\
  ~ 16383 < 2 ^ 8.
Proof.
  intros HN Hrun.
  split; [| split; [| split; [reflexivity | lia]]].
  - unfold read_leb128_unsigned, bind, ret in Hrun.
    destruct (read_leb128_internal_cases N HN bs) as (init & tl & E & Hall & Hlen & Htl).
    destruct tl as [|b rest]; [| destruct (continues b)];
      [| destruct Htl as [? Htl] |]; rewrite Htl in Hrun; try discriminate.
    injection Hrun as <- <-. cbn [internal.result].
    pose proof (groups_range (init ++ [b])) as Hg.
    rewrite length_app, Nat2Z.inj_add in Hg. cbn [length] in Hg.
    pose proof (wrap64_range (groups (init ++ [b]))) as Hw.
    assert (wrap64 (groups (init ++ [b])) <= groups (init ++ [b])) as Hle
      by (apply Z.mod_le; lia).
    apply (max_bytes_spec N) in Hlen; [| lia].
    assert (2 ^ (7 * (Z.of_nat (length init) + Z.of_nat 1)) <= 2 ^ (7 * max_bytes N))
      by (apply Z.pow_le_mono_r; lia).
    lia.
  - unfold read_leb128_unsigned, bind, ret in Hrun.
    destruct (read_leb128_internal_cases N HN bs) as (init & tl & E & Hall & Hlen & Htl).
    destruct tl as [|b rest]; [| destruct (continues b)];
      [| destruct Htl as [? Htl] |]; rewrite Htl in Hrun; try discriminate.
    injection Hrun as <- <-. cbn [internal.result].
    apply wrap64_range.
Qed.

Lemma read_leb128_unsigned_bound_witness :
  0 <= 16383 < 2 ^ (7 * max_bytes 8).
Proof.
  apply (read_leb128_unsigned_bound 8 [Byte.xff; Byte.x7f] 16383 {| remaining_ := [] |});
    [lia | reflexivity].
Defined.

(** ** The signed decoder *)

Lemma lor_u64 (x y : Z) : 0 <= x < 2 ^ 64 -> 0 <= y < 2 ^ 64 -> 0 <= Z.lor x y < 2 ^ 64.
Proof.
  intros Hx Hy.
  rewrite <- (wrap64_small x), <- (wrap64_small y), <- wrap64_lor by assumption.
  apply wrap64_range.
Qed.

(** At any width, what the loop returns are 64-bit values. *)
Lemma read_leb128_loop_range (N : Z) (fuel : nat) :
  forall (acc sh : Z) (r r' : WasmBytecodeReaderBase) (p : internal.LEB128ReaderResult),
    0 <= acc < 2 ^ 64 ->
    read_leb128_loop N fuel acc sh r = (Ok p, r') ->
    0 <= internal.result p < 2 ^ 64 /\ 0 <= internal.shift p < 2 ^ 64.
Proof.
  induction fuel as [|fuel IH]; intros acc sh [bs] r' p Hacc Hrun; [discriminate |].
  destruct bs as [|b tl]; [discriminate |].
  rewrite read_leb128_loop_cons in Hrun. cbv zeta in Hrun.
  assert (0 <= Z.lor acc (shl64 (payload b) sh) < 2 ^ 64) as Hacc'
    by (apply lor_u64; [assumption | apply wrap64_range]).
  destruct (continues b && (wrap64 (sh + 7) <? wrap64 N)).
  - by apply IH in Hrun.
  - destruct (continues b); [discriminate |].
    injection Hrun as <- <-. cbn. split; [assumption | apply wrap64_range].
Qed.

Lemma bit_cast_i64_testbit (x i : Z) :
  0 <= x < 2 ^ 64 -> 0 <= i < 64 -> Z.testbit (bit_cast_i64 x) i = Z.testbit x i.
Proof.
  intros Hx Hi. unfold bit_cast_i64. destruct (x <? 2 ^ 63); [reflexivity |].
  rewrite <- (Z.mod_pow2_bits_low (x - 2 ^ 64) 64 i) by lia.
  rewrite <- (Z.mod_pow2_bits_low x 64 i) by lia.
  f_equal. replace (x - 2 ^ 64) with (x + (-1) * 2 ^ 64) by lia.
  apply Z.mod_add. lia.
Qed.

Lemma bit_cast_i64_negative (x : Z) :
  0 <= x < 2 ^ 64 -> Z.testbit x 63 = true -> bit_cast_i64 x < 0.
Proof.
  intros Hx Hbit. unfold bit_cast_i64.
  destruct (Z.ltb_spec x (2 ^ 63)) as [Hlt|Hge]; [| lia].
  rewrite Z.bits_above_log2 in Hbit; [discriminate | lia |].
  destruct (Z.eq_dec x 0) as [->|Hne]; [cbn; lia |].
  apply Z.log2_lt_pow2; lia.
Qed.

Lemma sign_extension_testbit (acc sh i : Z) :
  0 <= sh -> 0 <= i < 64 ->
  Z.testbit (Z.lor acc (shl64 u64_ones sh)) i = (sh <=? i) || Z.testbit acc i.
Proof.
  intros Hsh Hi. unfold shl64, wrap64, wrap. change u64_ones with (Z.ones 64).
  rewrite Z.lor_spec, Z.mod_pow2_bits_low, Z.shiftl_spec by lia.
  rewrite orb_comm. f_equal.
  destruct (Z.leb_spec sh i).
  - apply Z.ones_spec_low. lia.
  - apply Z.testbit_neg_r. lia.
Qed.

(** C3: when the signed decode succeeds, what it returns is the
    accumulator of the loop read as an [i64], after every bit from the
    shift upward has been set if the shift is below 64 and bit 6 of the
    last byte is set, and as it is otherwise.  At width 8 a last byte with
    bit 6 set gives a negative number. *)
Theorem read_leb128_signed_sign_extends
  (N : Z) (r r' : WasmBytecodeReaderBase) (v : Z) :
  read_leb128_signed N r = (Ok v, r') ->
  exists parsed,
    read_leb128_internal N r = (Ok parsed, r') /\
    (if (internal.shift parsed <? 64) && has_bits (internal.last_byte parsed) 0x40
     then v = bit_cast_i64
                (Z.lor (internal.result parsed) (shl64 u64_ones (internal.shift parsed))) /\
          (forall i, 0 <= i < 64 ->
             Z.testbit v i
             = (internal.shift parsed <=? i) || Z.testbit (internal.result parsed) i)
     else v = bit_cast_i64 (internal.result parsed) /\
          (forall i, 0 <= i < 64 ->
             Z.testbit v i = Z.testbit (internal.result parsed) i)) /\
    (N = 8 -> has_bits (internal.last_byte parsed) 0x40 = true -> v < 0).
Proof.
  intros Hrun. unfold read_leb128_signed, bind, ret in Hrun.
  destruct (read_leb128_internal N r) as [[parsed| | |] r1] eqn:Hint; try discriminate.
  injection Hrun as <- <-. exists parsed. split; [reflexivity |].
  change internal.leb128_sign with 0x40.
  destruct (read_leb128_loop_range N _ 0 0 r r1 parsed ltac:(lia) Hint) as [Hres Hsh].
  assert (0 <= Z.lor (internal.result parsed) (shl64 u64_ones (internal.shift parsed))
          < 2 ^ 64) as Hext by (apply lor_u64; [assumption | apply wrap64_range]).
  split.
  - destruct ((internal.shift parsed <? 64) && has_bits (internal.last_byte parsed) 64);
      (split; [reflexivity |]); intros i Hi.
    + rewrite bit_cast_i64_testbit by assumption.
      apply sign_extension_testbit; lia.
    + by apply bit_cast_i64_testbit.
  - intros -> Hsign. rewrite Hsign, andb_true_r.
    assert (internal.shift parsed <= 14) as Hle.
    { destruct r as [bs].
      destruct (read_leb128_internal_cases 8 ltac:(lia) bs)
        as (init & tl & E & Hall & Hlen & Htl).
      destruct tl as [|b rest]; [| destruct (continues b)];
        [| destruct Htl as [? Htl] |]; rewrite Htl in Hint; try discriminate.
      injection Hint as <- <-. cbn. lia. }
    replace (internal.shift parsed <? 64) with true by (symmetry; apply Z.ltb_lt; lia).
    apply bit_cast_i64_negative; [assumption |].
    rewrite sign_extension_testbit by lia.
    replace (internal.shift parsed <=? 63) with true by (symmetry; apply Z.leb_le; lia).
    reflexivity.
Qed.

Lemma read_leb128_signed_sign_extends_witness :
  exists parsed,
    read_leb128_internal 8 {| remaining_ := [Byte.x80; Byte.x7f] |}
    = (Ok parsed, {| remaining_ := [] |}) /\
    internal.shift parsed = 14 /\ -128 < 0.
Proof.
  destruct (read_leb128_signed_sign_extends 8
              {| remaining_ := [Byte.x80; Byte.x7f] |} {| remaining_ := [] |} (-128))
    as (parsed & Hint & _ & Hneg); [reflexivity |].
  exists parsed. split; [exact Hint |].
  split; [| apply Hneg; [reflexivity |]];
    vm_compute in Hint; injection Hint as <-; reflexivity.
Defined.

(** ** The encoders *)

Lemma land_7F (x : Z) : Z.land x 0x7F = x mod 128.
Proof. change 0x7F with (Z.ones 7). by rewrite Z.land_ones. Qed.

Lemma shiftr_7 (x : Z) : Z.shiftr x 7 = x / 128.
Proof. by rewrite Z.shiftr_div_pow2. Qed.

Lemma unsigned_of_Z_small (g : Z) : 0 <= g < 256 -> byte.unsigned (byte.of_Z g) = g.
Proof. intros H. rewrite byte.unsigned_of_Z. by apply Z.mod_small. Qed.

Lemma has_bits_sign (b : byte) :
  has_bits (byte.unsigned b) 0x40 = (64 <=? byte.unsigned b mod 128).
Proof. destruct b; reflexivity. Qed.

Lemma lor_0x80 (b : byte) :
  Z.lor (byte.unsigned b mod 128) 0x80 = byte.unsigned b mod 128 + 128.
Proof. destruct b; reflexivity. Qed.

(** A group written as a last byte, and as a byte that is followed. *)
Lemma last_byte_spec (g : Z) :
  0 <= g < 128 ->
  continues (byte.of_Z g) = false /\
  payload (byte.of_Z g) = g /\
  sign_bit (byte.of_Z g) = (64 <=? g) /\
  has_bits g 0x40 = (64 <=? g).
Proof.
  intros Hg. pose proof (unsigned_of_Z_small g ltac:(lia)) as Hu.
  rewrite continues_ge, sign_bit_payload, payload_mod, Hu, Z.mod_small by lia.
  repeat split; [apply Z.leb_gt; lia |].
  rewrite <- Hu at 1. rewrite has_bits_sign, Hu. by rewrite Z.mod_small.
Qed.

Lemma continuing_byte_spec (g : Z) :
  0 <= g < 128 ->
  continues (byte.of_Z (Z.lor g 0x80)) = true /\
  payload (byte.of_Z (Z.lor g 0x80)) = g.
Proof.
  intros Hg.
  assert (Z.lor g 0x80 = g + 128) as ->.
  { rewrite <- (unsigned_of_Z_small g) by lia.
    rewrite <- (Z.mod_small (byte.unsigned (byte.of_Z g)) 128)
      by (rewrite unsigned_of_Z_small; lia).
    apply lor_0x80. }
  rewrite continues_ge, payload_mod, unsigned_of_Z_small by lia.
  split; [apply Z.leb_le; lia |].
  rewrite <- (Z.mod_small g 128) at 2 by lia.
  replace (g + 128) with (g + 1 * 128) by lia. apply Z.mod_add. lia.
Qed.

Lemma pow2_7_succ (n : nat) : 2 ^ (7 * Z.of_nat (S n)) = 128 * 2 ^ (7 * Z.of_nat n).
Proof.
  rewrite Nat2Z.inj_succ.
  replace (7 * Z.succ (Z.of_nat n)) with (7 + 7 * Z.of_nat n) by lia.
  by rewrite Z.pow_add_r by lia.
Qed.

Lemma encode_unsigned_groups_spec (more : nat) :
  forall v : Z,
    0 <= v < 2 ^ (7 * Z.of_nat (S more)) ->
    exists init b,
      encode_unsigned_groups more v = init ++ [b] /\
      Forall (fun c => continues c = true) init /\
      continues b = false /\
      groups (init ++ [b]) = v /\
      (init <> [] -> 2 ^ (7 * Z.of_nat (length init)) <= v).
Proof.
  assert (forall v, 0 <= v < 128 ->
            Forall (fun c => continues c = true) [] /\
            continues (byte.of_Z (Z.land v 0x7F)) = false /\
            groups ([] ++ [byte.of_Z (Z.land v 0x7F)]) = v /\
            ([] <> @nil byte -> 2 ^ (7 * Z.of_nat (@length byte [])) <= v)) as Hone.
  { intros v Hv. rewrite land_7F, Z.mod_small by lia.
    destruct (last_byte_spec v Hv) as (Hc & Hp & _).
    repeat split; [constructor | assumption | | congruence].
    cbn [app]. by rewrite groups_singleton. }
  induction more as [|more IH]; intros v Hv.
  - exists [], (byte.of_Z (Z.land v 0x7F)). split; [reflexivity |].
    apply Hone. change (2 ^ (7 * Z.of_nat 1)) with 128 in Hv. lia.
  - cbn [encode_unsigned_groups]. cbv zeta. rewrite shiftr_7.
    destruct (Z.eqb_spec (v / 128) 0) as [Hz|Hnz].
    + exists [], (byte.of_Z (Z.land v 0x7F)). split; [reflexivity |].
      apply Hone. Z.div_mod_to_equations. lia.
    + rewrite pow2_7_succ in Hv.
      destruct (IH (v / 128)) as (init & b & -> & Hall & Hb & Hg & Hmin).
      { Z.div_mod_to_equations. lia. }
      rewrite land_7F.
      destruct (continuing_byte_spec (v mod 128)) as [Hc Hp];
        [apply Z.mod_pos_bound; lia |].
      exists (byte.of_Z (Z.lor (v mod 128) 0x80) :: init), b.
      split; [reflexivity |]. split; [by constructor |]. split; [assumption |].
      split.
      * cbn [app]. rewrite groups_cons_add, Hg, Hp. Z.div_mod_to_equations. lia.
      * intros _. cbn [length]. rewrite pow2_7_succ.
        destruct init as [|c init].
        -- cbn. Z.div_mod_to_equations. lia.
        -- specialize (Hmin ltac:(discriminate)). Z.div_mod_to_equations. lia.
Qed.

Lemma read_leb128_unsigned_encode (N v : Z) (rest : list byte) :
  1 <= N <= 64 ->
  0 <= v < 2 ^ N ->
  read_leb128_unsigned N {| remaining_ := encode_unsigned v ++ rest |}
  = (Ok v, {| remaining_ := rest |}).
Proof.
  intros HN Hv.
  assert (2 ^ N <= 2 ^ 64) as HN64 by (apply Z.pow_le_mono_r; lia).
  destruct (encode_unsigned_groups_spec 9 v) as (init & b & E & Hall & Hb & Hg & Hmin).
  { change (2 ^ (7 * Z.of_nat 10)) with (2 ^ 70). lia. }
  unfold encode_unsigned. rewrite E, <- app_assoc. cbn [app].
  unfold read_leb128_unsigned, bind.
  rewrite read_leb128_internal_ok; [| assumption..|].
  - unfold ret. cbn [internal.result]. rewrite Hg, wrap64_small by lia. reflexivity.
  - destruct init as [|c init]; [cbn; lia |].
    specialize (Hmin ltac:(discriminate)).
    destruct (Z.lt_ge_cases (7 * Z.of_nat (length (c :: init))) N) as [|Hge];
      [assumption | exfalso].
    assert (2 ^ N <= 2 ^ (7 * Z.of_nat (length (c :: init))))
      by (apply Z.pow_le_mono_r; lia).
    lia.
Qed.

Lemma mod_128_mul (v M : Z) :
  0 < M -> v mod (128 * M) = v mod 128 + 128 * ((v / 128) mod M).
Proof. intros HM. apply Z.rem_mul_r; lia. Qed.

(** The signed encoding of [v] in [L + 1] bytes: its groups are the low
    [7 * (L + 1)] bits of [v], bit 6 of the last byte is the sign of [v],
    [v] fits in [7 * (L + 1)] bits and in no fewer groups. *)
Lemma encode_signed_groups_spec (more : nat) :
  forall v : Z,
    - (64 * 2 ^ (7 * Z.of_nat more)) <= v < 64 * 2 ^ (7 * Z.of_nat more) ->
    exists init b,
      encode_signed_groups more v = init ++ [b] /\
      Forall (fun c => continues c = true) init /\
      continues b = false /\
      groups (init ++ [b]) = v mod 2 ^ (7 * Z.of_nat (S (length init))) /\
      sign_bit b = (v <? 0) /\
      - (64 * 2 ^ (7 * Z.of_nat (length init))) <= v
        < 64 * 2 ^ (7 * Z.of_nat (length init)) /\
      (forall L, length init = S L ->
                 ~ - (64 * 2 ^ (7 * Z.of_nat L)) <= v < 64 * 2 ^ (7 * Z.of_nat L)).
Proof.
  assert (forall v, -64 <= v < 64 ->
            Forall (fun c => continues c = true) [] /\
            continues (byte.of_Z (Z.land v 0x7F)) = false /\
            groups ([] ++ [byte.of_Z (Z.land v 0x7F)])
            = v mod 2 ^ (7 * Z.of_nat (S (@length byte []))) /\
            sign_bit (byte.of_Z (Z.land v 0x7F)) = (v <? 0) /\
            - (64 * 2 ^ (7 * Z.of_nat (@length byte []))) <= v
              < 64 * 2 ^ (7 * Z.of_nat (@length byte [])) /\
            (forall L, @length byte [] = S L ->
                 ~ - (64 * 2 ^ (7 * Z.of_nat L)) <= v < 64 * 2 ^ (7 * Z.of_nat L)))
    as Hone.
  { intros v Hv. rewrite land_7F.
    destruct (last_byte_spec (v mod 128)) as (Hc & Hp & Hs & _);
      [apply Z.mod_pos_bound; lia |].
    split; [constructor |]. split; [assumption |].
    split; [cbn [app]; by rewrite groups_singleton |].
    split; [| split; [cbn; lia | discriminate]].
    rewrite Hs. destruct (Z.ltb_spec v 0); [apply Z.leb_le | apply Z.leb_gt];
      Z.div_mod_to_equations; lia. }
  induction more as [|more IH]; intros v Hv.
  - exists [], (byte.of_Z (Z.land v 0x7F)). split; [reflexivity |].
    apply Hone. cbn in Hv. lia.
  - cbn [encode_signed_groups]. cbv zeta. rewrite shiftr_7, land_7F.
    pose proof (Z.mod_pos_bound v 128 ltac:(lia)) as Hg.
    destruct (last_byte_spec (v mod 128) Hg) as (_ & _ & _ & ->).
    destruct ((v / 128 =? 0) && negb (64 <=? v mod 128)
              || (v / 128 =? -1) && (64 <=? v mod 128)) eqn:Htest.
    + exists [], (byte.of_Z (v mod 128)). split; [reflexivity |].
      rewrite <- land_7F. apply Hone.
      apply orb_true_iff in Htest as [Htest|Htest];
        apply andb_true_iff in Htest as [H1 H2]; apply Z.eqb_eq in H1.
      * apply negb_true_iff, Z.leb_gt in H2. Z.div_mod_to_equations. lia.
      * apply Z.leb_le in H2. Z.div_mod_to_equations. lia.
    + assert (~ -64 <= v < 64) as Hout.
      { intros Hin. apply orb_false_iff in Htest as [H1 H2].
        destruct (Z.ltb_spec v 0).
        - assert (v / 128 = -1) as E by (Z.div_mod_to_equations; lia).
          rewrite E in H2. cbn in H2. apply Z.leb_gt in H2.
          Z.div_mod_to_equations. lia.
        - assert (v / 128 = 0) as E by (Z.div_mod_to_equations; lia).
          rewrite E in H1. cbn in H1. apply negb_false_iff, Z.leb_le in H1.
          Z.div_mod_to_equations. lia. }
      rewrite pow2_7_succ in Hv.
      destruct (IH (v / 128)) as (init & b & -> & Hall & Hb & Hgr & Hs & Hfit & Hmin).
      { Z.div_mod_to_equations. lia. }
      destruct (continuing_byte_spec (v mod 128) Hg) as [Hc Hp].
      exists (byte.of_Z (Z.lor (v mod 128) 0x80) :: init), b.
      split; [reflexivity |]. split; [by constructor |]. split; [assumption |].
      cbn [length].
      split; [| split; [| split]].
      * cbn [app]. rewrite groups_cons_add, Hgr, Hp.
        rewrite (pow2_7_succ (S (length init))).
        symmetry. apply mod_128_mul. apply Z.pow_pos_nonneg; lia.
      * rewrite Hs. destruct (Z.ltb_spec (v / 128) 0), (Z.ltb_spec v 0);
          try reflexivity; Z.div_mod_to_equations; lia.
      * rewrite pow2_7_succ. Z.div_mod_to_equations. lia.
      * intros L [= <-]. destruct init as [|c init].
        -- cbn. lia.
        -- specialize (Hmin (length init) eq_refl). cbn [length].
           rewrite pow2_7_succ. Z.div_mod_to_equations. lia.
Qed.

Lemma bit_cast_i64_wrap64 (v : Z) :
  - 2 ^ 63 <= v < 2 ^ 63 -> bit_cast_i64 (wrap64 v) = v.
Proof.
  intros Hv. unfold bit_cast_i64, wrap64, wrap.
  change (2 ^ 64) with 18446744073709551616.
  change (2 ^ 63) with 9223372036854775808 in *.
  destruct (Z.ltb_spec (v mod 18446744073709551616) 9223372036854775808);
    Z.div_mod_to_equations; lia.
Qed.

Lemma testbit_negative_high (v k i : Z) :
  0 <= k <= i -> - 2 ^ k <= v < 0 -> Z.testbit v i = true.
Proof.
  intros Hk Hv. rewrite <- (Z.opp_involutive v), Z.bits_opp by lia.
  apply negb_true_iff.
  rewrite <- (Z.mod_small (Z.pred (- v)) (2 ^ k)) by lia.
  apply Z.mod_pow2_bits_high. lia.
Qed.

Lemma wrap64_mod_pow2 (v s : Z) : 64 <= s -> wrap64 (v mod 2 ^ s) = wrap64 v.
Proof.
  intros Hs. unfold wrap64, wrap. apply Z.mod_mod_divide.
  exists (2 ^ (s - 64)). rewrite <- Z.pow_add_r by lia. f_equal. lia.
Qed.

(** Setting the bits from [s] upward on the low [s] bits of a negative [v]
    that fits in [s] bits gives the 64-bit pattern of [v]. *)
Lemma sign_extension_wrap64 (v s : Z) :
  0 < s < 64 ->
  - 2 ^ (s - 1) <= v < 0 ->
  Z.lor (wrap64 (v mod 2 ^ s)) (shl64 u64_ones s) = wrap64 v.
Proof.
  intros Hs Hv. apply Z.bits_inj'; intros i Hi.
  destruct (Z.lt_ge_cases i 64) as [Hlt|Hge].
  - rewrite sign_extension_testbit by lia.
    unfold wrap64, wrap.
    rewrite (Z.mod_pow2_bits_low (v mod 2 ^ s) 64), (Z.mod_pow2_bits_low v 64) by lia.
    destruct (Z.leb_spec s i).
    + cbn [orb]. symmetry. apply (testbit_negative_high v (s - 1)); lia.
    + cbn [orb]. apply Z.mod_pow2_bits_low. lia.
  - unfold shl64, wrap64, wrap. rewrite Z.lor_spec, !Z.mod_pow2_bits_high by lia.
    reflexivity.
Qed.

Lemma read_leb128_signed_encode (N v : Z) (rest : list byte) :
  1 <= N <= 64 ->
  - 2 ^ (N - 1) <= v < 2 ^ (N - 1) ->
  read_leb128_signed N {| remaining_ := encode_signed v ++ rest |}
  = (Ok v, {| remaining_ := rest |}).
Proof.
  intros HN Hv.
  assert (2 ^ (N - 1) <= 2 ^ 63) as HN63 by (apply Z.pow_le_mono_r; lia).
  destruct (encode_signed_groups_spec 9 v)
    as (init & b & E & Hall & Hb & Hg & Hs & Hfit & Hmin).
  { change (2 ^ (7 * Z.of_nat 9)) with (2 ^ 63). lia. }
  unfold encode_signed. rewrite E, <- app_assoc. cbn [app].
  assert (7 * Z.of_nat (length init) < N) as Hlen.
  { destruct (length init) as [|L] eqn:EL; [lia |].
    specialize (Hmin L eq_refl).
    destruct (Z.lt_ge_cases (7 * Z.of_nat (S L)) N) as [|Hge]; [assumption | exfalso].
    apply Hmin.
    assert (2 ^ (N - 1) <= 2 ^ (6 + 7 * Z.of_nat L)) by (apply Z.pow_le_mono_r; lia).
    rewrite Z.pow_add_r in * by lia. change (2 ^ 6) with 64 in *. lia. }
  unfold read_leb128_signed, bind.
  rewrite read_leb128_internal_ok by assumption.
  unfold ret. cbn [internal.result internal.shift internal.last_byte].
  fold (sign_bit b). rewrite Hs, Hg. do 2 f_equal.
  transitivity (bit_cast_i64 (wrap64 v)); [f_equal | apply bit_cast_i64_wrap64; lia].
  set (s := 7 * (Z.of_nat (length init) + 1)).
  replace (7 * Z.of_nat (S (length init))) with s by lia.
  assert (64 * 2 ^ (7 * Z.of_nat (length init)) = 2 ^ (s - 1)) as Hpow.
  { replace (s - 1) with (6 + 7 * Z.of_nat (length init)) by lia.
    by rewrite Z.pow_add_r by lia. }
  rewrite Hpow in Hfit.
  destruct (Z.ltb_spec s 64) as [Hs64|Hs64]; cbn [andb].
  - destruct (Z.ltb_spec v 0) as [Hneg|Hpos].
    + apply sign_extension_wrap64; lia.
    + f_equal. apply Z.mod_small.
      assert (2 ^ (s - 1) <= 2 ^ s) by (apply Z.pow_le_mono_r; lia). lia.
  - by apply wrap64_mod_pow2.
Qed.

(** C2: at a width [N] between 1 and 64, decoding the encoding of an
    unsigned [v] below [2 ^ N] returns [v], and the signed decode of the
    signed encoding of a [v] in the [N]-bit two's-complement range returns
    [v]; each leaves the cursor just behind the encoding. *)
Theorem leb128_round_trip (N v : Z) (rest : list byte) :
  1 <= N <= 64 ->
  (0 <= v < 2 ^ N ->
   read_leb128_unsigned N {| remaining_ := encode_unsigned v ++ rest |}
   = (Ok v, {| remaining_ := rest |})) /\
  (- 2 ^ (N - 1) <= v < 2 ^ (N - 1) ->
   read_leb128_signed N {| remaining_ := encode_signed v ++ rest |}
   = (Ok v, {| remaining_ := rest |})).
Proof.
  intros HN. split; intros Hv.
  - by apply read_leb128_unsigned_encode.
  - by apply read_leb128_signed_encode.
Qed.

Lemma leb128_round_trip_witness :
  read_leb128_unsigned 32 {| remaining_ := encode_unsigned 624485 ++ [Byte.x00] |}
  = (Ok 624485, {| remaining_ := [Byte.x00] |}) /\
  read_leb128_signed 32 {| remaining_ := encode_signed (-123456) ++ [Byte.x00] |}
  = (Ok (-123456), {| remaining_ := [Byte.x00] |}).
Proof.
  split.
  - apply (leb128_round_trip 32 624485 [Byte.x00]); lia.
  - apply (leb128_round_trip 32 (-123456) [Byte.x00]); lia.
Defined.

(** ** The multi-array *)

Section MultiArray.
Context {T : Type}.
Variable N : nat.

Lemma pushed_split (cs : list (@MultiArrayBuilder.call T)) :
  forall cur : list T,
    cur ++ MultiArrayBuilder.pushed cs
    = concat (MultiArrayBuilder.pushed_between cs cur) ++ MultiArrayBuilder.unclosed cs cur.
Proof.
  induction cs as [|[v|] cs IH]; intros cur; cbn.
  - by rewrite app_nil_r.
  - rewrite <- IH, <- app_assoc. reflexivity.
  - rewrite <- app_assoc. f_equal. apply (IH []).
Qed.

(** What a sequence of calls makes of a builder whose vector is [closed],
    the elements of the sub-vectors already closed, followed by [cur]. *)
Lemma do_calls_spec (cs : list (@MultiArrayBuilder.call T)) :
  forall (b : @MultiArrayBuilder.t T) (closed cur : list T),
    MultiArrayBuilder.underlying_ b = closed ++ cur ->
    length (MultiArrayBuilder.indices_ b) = N ->
    (MultiArrayBuilder.current_index_ b
     + length (MultiArrayBuilder.pushed_between cs cur) <= N)%nat ->
    exists b' : @MultiArrayBuilder.t T,
      MultiArrayBuilder.do_calls N cs b = Some b' /\
      MultiArrayBuilder.underlying_ b'
      = MultiArrayBuilder.underlying_ b ++ MultiArrayBuilder.pushed cs /\
      length (MultiArrayBuilder.indices_ b') = N /\
      (forall j : nat,
         (j < MultiArrayBuilder.current_index_ b)%nat ->
         MultiArrayBuilder.indices_ b' !! j = MultiArrayBuilder.indices_ b !! j) /\
      (forall j : nat,
         (j < length (MultiArrayBuilder.pushed_between cs cur))%nat ->
         MultiArrayBuilder.indices_ b' !! (MultiArrayBuilder.current_index_ b + j)%nat
         = Some (wrap32 (Z.of_nat
                   (length closed
                    + length (concat (take (S j)
                                        (MultiArrayBuilder.pushed_between cs cur))))))).
Proof.
  induction cs as [|[v|] cs IH]; intros b closed cur Hund Hlen Hcur.
  - exists b. cbn. rewrite app_nil_r. repeat split; try done. intros j Hj. lia.
  - cbn [MultiArrayBuilder.do_calls MultiArrayBuilder.do_call
           MultiArrayBuilder.pushed_between MultiArrayBuilder.pushed] in *.
    destruct (IH (MultiArrayBuilder.push v b) closed (cur ++ [v]))
      as (b' & Hrun & Hu & Hl & Hold & Hnew); cbn; try assumption.
    { by rewrite Hund, app_assoc. }
    exists b'. cbn in Hu. rewrite <- app_assoc in Hu. by repeat split.
  - cbn [MultiArrayBuilder.do_calls MultiArrayBuilder.do_call
           MultiArrayBuilder.pushed_between MultiArrayBuilder.pushed length] in *.
    unfold MultiArrayBuilder.end_sub_vec.
    replace (MultiArrayBuilder.current_index_ b <? N)%nat with true
      by (symmetry; apply Nat.ltb_lt; lia).
    set (b1 := {| MultiArrayBuilder.underlying_ := MultiArrayBuilder.underlying_ b;
                  MultiArrayBuilder.indices_ := _;
                  MultiArrayBuilder.current_index_ := _ |}).
    destruct (IH b1 (closed ++ cur) [])
      as (b' & Hrun & Hu & Hl & Hold & Hnew); subst b1; cbn.
    { by rewrite app_nil_r. }
    { by rewrite length_insert. }
    { lia. }
    exists b'. cbn in *. repeat split; try assumption.
    + intros j Hj. rewrite Hold by lia. apply list_lookup_insert_ne. lia.
    + intros [|j] Hj.
      * rewrite Nat.add_0_r, Hold by lia.
        rewrite list_lookup_insert_eq by lia.
        cbn. by rewrite app_nil_r, Hund, length_app.
      * replace (MultiArrayBuilder.current_index_ b + S j)%nat
          with (S (MultiArrayBuilder.current_index_ b + j)) by lia.
        rewrite Hnew by lia.
        cbn [take concat]. rewrite !length_app. do 3 f_equal. lia.
Qed.

Lemma wrap32_small (x : Z) : 0 <= x < 2 ^ 32 -> wrap32 x = x.
Proof. apply Z.mod_small. Qed.

Lemma length_concat_take {A : Type} (k : nat) (l : list (list A)) :
  (length (concat (take k l)) <= length (concat l))%nat.
Proof.
  rewrite <- (take_drop k l) at 2. rewrite concat_app, length_app. lia.
Qed.

End MultiArray.

Section Wrap.
Context {T : Type}.
Variable N : nat.
Variable x : T.

Lemma do_calls_replicate_push (n : nat) :
  forall (cs : list (@MultiArrayBuilder.call T)) (b : @MultiArrayBuilder.t T),
    MultiArrayBuilder.do_calls N (replicate n (MultiArrayBuilder.Push x) ++ cs) b
    = MultiArrayBuilder.do_calls N cs
        {| MultiArrayBuilder.underlying_ := MultiArrayBuilder.underlying_ b ++ replicate n x;
           MultiArrayBuilder.indices_ := MultiArrayBuilder.indices_ b;
           MultiArrayBuilder.current_index_ := MultiArrayBuilder.current_index_ b |}.
Proof.
  induction n as [|n IH]; intros cs [u idx c].
  - cbn. by rewrite app_nil_r.
  - cbn [replicate app MultiArrayBuilder.do_calls MultiArrayBuilder.do_call].
    rewrite IH. cbn. by rewrite <- app_assoc.
Qed.

Lemma pushed_between_replicate_push (n : nat) :
  forall (cs : list (@MultiArrayBuilder.call T)) (cur : list T),
    MultiArrayBuilder.pushed_between (replicate n (MultiArrayBuilder.Push x) ++ cs) cur
    = MultiArrayBuilder.pushed_between cs (cur ++ replicate n x).
Proof.
  induction n as [|n IH]; intros cs cur.
  - cbn. by rewrite app_nil_r.
  - cbn [replicate app MultiArrayBuilder.pushed_between].
    rewrite IH. by rewrite <- app_assoc.
Qed.

End Wrap.

(** With [2 ^ 32] elements pushed before the first close, the end offset
    that is recorded is 0. *)
Lemma sub_vec_after_wrap (n : nat) :
  Z.of_nat n = 2 ^ 32 ->
  MultiArrayBuilder.pushed_between
    (replicate n (MultiArrayBuilder.Push i32) ++ [MultiArrayBuilder.EndSubVec]) []
  = [replicate n i32] /\
  exists b : @MultiArrayBuilder.t ValueType,
    MultiArrayBuilder.do_calls 1
      (replicate n (MultiArrayBuilder.Push i32) ++ [MultiArrayBuilder.EndSubVec])
      (MultiArrayBuilder.new 1) = Some b /\
    MultiArrayBuilder.underlying_ b = replicate n i32 /\
    MultiArrayBuilder.indices_ b = [0] /\
    MultiArrayBuilder.indices_ b !! 0%nat
    <> Some (Z.of_nat (length (MultiArrayBuilder.underlying_ b))) /\
    SmallMultiArray.sub_vec 1
      {| SmallMultiArray.array_ := MultiArrayBuilder.underlying_ b;
         SmallMultiArray.indices_ := MultiArrayBuilder.indices_ b |} 0
    = Some [] /\
    SmallMultiArray.sub_vec 1
      {| SmallMultiArray.array_ := MultiArrayBuilder.underlying_ b;
         SmallMultiArray.indices_ := MultiArrayBuilder.indices_ b |} 0
    <> Some (replicate n i32).
Proof.
  intros Hn.
  split; [by rewrite pushed_between_replicate_push |].
  rewrite do_calls_replicate_push.
  eexists. split; [reflexivity |].
  cbn [MultiArrayBuilder.new MultiArrayBuilder.underlying_
       MultiArrayBuilder.indices_ MultiArrayBuilder.current_index_ app replicate].
  rewrite length_replicate, Hn.
  change (<[0%nat:=wrap32 (2 ^ 32)]> [0]) with [0].
  split; [reflexivity |]. split; [reflexivity |].
  split; [cbn; intros [= E]; lia |].
  unfold SmallMultiArray.sub_vec, span_of.
  cbn [SmallMultiArray.array_ SmallMultiArray.indices_ Nat.ltb Nat.leb Nat.eqb].
  change ([0] !! 0%nat) with (Some 0). cbv beta iota.
  change (wrap32 (0 - 0)) with 0.
  replace (_ <=? _) with true by (symmetry; apply Z.leb_le; lia).
  change (Z.to_nat 0) with 0%nat. rewrite take_0.
  split; [reflexivity |].
  destruct n as [|n]; [cbn in Hn; lia | discriminate].
Qed.

(** C9 fails on the code, against the code's own comment on [indices_]
    ("this means that indices_[N - 1] == array_.size()").  With [N = 1],
    after [2 ^ 32] calls of [push] and one of [end_sub_vec()] the only
    sub-vector closed holds all the elements pushed, while the builder,
    which narrows [underlying_.size()] to [u32], has recorded the end
    offset 0 and not the size; [sub_vec(0)] of a store with the builder's
    two members, such as the constructor of [SmallMultiArray] makes of
    them, is empty and is not the elements pushed. *)
Theorem sub_vec_offset_wraps :
  MultiArrayBuilder.pushed_between
    (replicate (Z.to_nat (2 ^ 32)) (MultiArrayBuilder.Push i32)
     ++ [MultiArrayBuilder.EndSubVec]) []
  = [replicate (Z.to_nat (2 ^ 32)) i32] /\
  exists b : @MultiArrayBuilder.t ValueType,
    MultiArrayBuilder.do_calls 1
      (replicate (Z.to_nat (2 ^ 32)) (MultiArrayBuilder.Push i32)
       ++ [MultiArrayBuilder.EndSubVec])
      (MultiArrayBuilder.new 1) = Some b /\
    MultiArrayBuilder.underlying_ b = replicate (Z.to_nat (2 ^ 32)) i32 /\
    MultiArrayBuilder.indices_ b = [0] /\
    MultiArrayBuilder.indices_ b !! 0%nat
    <> Some (Z.of_nat (length (MultiArrayBuilder.underlying_ b))) /\
    SmallMultiArray.sub_vec 1
      {| SmallMultiArray.array_ := MultiArrayBuilder.underlying_ b;
         SmallMultiArray.indices_ := MultiArrayBuilder.indices_ b |} 0
    = Some [] /\
    SmallMultiArray.sub_vec 1
      {| SmallMultiArray.array_ := MultiArrayBuilder.underlying_ b;
         SmallMultiArray.indices_ := MultiArrayBuilder.indices_ b |} 0
    <> Some (replicate (Z.to_nat (2 ^ 32)) i32).
Proof. apply sub_vec_after_wrap. apply Z2Nat.id. lia. Qed.

(** * Further properties of the reader *)

(** ** The cursor *)

(** X1: [expect(value)] throws the unexpected-end error on an empty input
    and leaves the cursor alone; otherwise it consumes exactly the first
    byte, returning when that byte is [value] and throwing the
    unexpected-byte error, which carries [value] and the byte found, when
    it is not. *)
Theorem expect_spec (value : byte) (r : WasmBytecodeReaderBase) :
  match remaining_ r with
  | [] => expect value r = (Throw UnexpectedEndOfInput, r)
  | b :: rest =>
      (b = value /\ expect value r = (Ok tt, {| remaining_ := rest |})) \/
      (b <> value /\
       expect value r = (Throw (UnexpectedByte value b), {| remaining_ := rest |}))
  end.
Proof.
  destruct r as [[|b rest]]; [reflexivity |]. cbn [remaining_].
  unfold expect, bind. rewrite consume_cons.
  destruct (Z.eqb_spec (byte.unsigned b) (byte.unsigned value)) as [E|E]; cbn.
  - left. split; [by apply byte.unsigned_inj | reflexivity].
  - right. split; [congruence | reflexivity].
Qed.

(** X2: with at least [N] bytes remaining [consume_n<N>()] returns the
    next [N] bytes in their order and leaves the cursor behind them. *)
Theorem consume_n_returns_prefix (N : nat) (bs : list byte) :
  (N <= length bs)%nat ->
  exists got rest,
    consume_n N {| remaining_ := bs |} = (Ok got, {| remaining_ := rest |}) /\
    bs = got ++ rest /\
    length got = N.
Proof.
  intros H. exists (take N bs), (drop N bs).
  split; [by apply consume_n_enough |].
  split; [by rewrite take_drop | rewrite length_take; lia].
Qed.

Lemma consume_n_returns_prefix_witness :
  exists got rest,
    consume_n 2 {| remaining_ := [Byte.x01; Byte.x02; Byte.x03] |}
    = (Ok got, {| remaining_ := rest |}) /\
    [Byte.x01; Byte.x02; Byte.x03] = got ++ rest /\ length got = 2%nat.
Proof.
  apply (consume_n_returns_prefix 2 [Byte.x01; Byte.x02; Byte.x03]). cbn. lia.
Defined.

(** X3: when [n + m] bytes remain, [consume_n<n + m>()] returns what
    [consume_n<n>()] and then [consume_n<m>()] return, one after the other,
    and leaves the cursor where the two calls leave it. *)
Theorem consume_n_add (n m : nat) (r : WasmBytecodeReaderBase) :
  (n + m <= length (remaining_ r))%nat ->
  exists a b r1 r2,
    consume_n n r = (Ok a, r1) /\
    consume_n m r1 = (Ok b, r2) /\
    consume_n (n + m) r = (Ok (a ++ b), r2).
Proof.
  intros H. destruct r as [bs]. cbn [remaining_] in H.
  exists (take n bs), (take m (drop n bs)),
    {| remaining_ := drop n bs |}, {| remaining_ := drop m (drop n bs) |}.
  rewrite !consume_n_enough by (rewrite ?length_drop; lia).
  by rewrite take_take_drop, drop_drop.
Qed.

Lemma consume_n_add_witness :
  exists a b r1 r2,
    consume_n 1 {| remaining_ := [Byte.x01; Byte.x02; Byte.x03] |} = (Ok a, r1) /\
    consume_n 1 r1 = (Ok b, r2) /\
    consume_n 2 {| remaining_ := [Byte.x01; Byte.x02; Byte.x03] |} = (Ok (a ++ b), r2).
Proof.
  apply (consume_n_add 1 1 {| remaining_ := [Byte.x01; Byte.x02; Byte.x03] |}).
  cbn. lia.
Defined.

(** ** The decoder *)

(** A successful run of the loop, read backwards. *)
Lemma read_leb128_internal_Ok_inv
  (N : Z) (bs : list byte) (p : internal.LEB128ReaderResult) (r' : WasmBytecodeReaderBase) :
  1 <= N <= 64 ->
  read_leb128_internal N {| remaining_ := bs |} = (Ok p, r') ->
  exists init b rest,
    bs = init ++ b :: rest /\
    r' = {| remaining_ := rest |} /\
    Forall (fun c => continues c = true) init /\
    continues b = false /\
    7 * Z.of_nat (length init) < N /\
    p = {| internal.result := wrap64 (groups (init ++ [b]));
           internal.shift := 7 * (Z.of_nat (length init) + 1);
           internal.last_byte := byte.unsigned b |}.
Proof.
  intros HN Hrun.
  destruct (read_leb128_internal_cases N HN bs) as (init & tl & E & Hall & Hlen & Htl).
  destruct tl as [|b rest]; [| destruct (continues b) eqn:Hb];
    [| destruct Htl as [? Htl] |]; rewrite Htl in Hrun; try discriminate.
  injection Hrun as <- <-. by exists init, b, rest.
Qed.

Lemma read_leb128_unsigned_Ok_inv
  (N : Z) (r r' : WasmBytecodeReaderBase) (v : Z) :
  read_leb128_unsigned N r = (Ok v, r') ->
  exists p, read_leb128_internal N r = (Ok p, r') /\ v = internal.result p.
Proof.
  unfold read_leb128_unsigned, bind, ret. intros H.
  destruct (read_leb128_internal N r) as [[p| | |] r1]; try discriminate.
  injection H as <- <-. by exists p.
Qed.

Lemma read_leb128_signed_Ok_inv
  (N : Z) (r r' : WasmBytecodeReaderBase) (v : Z) :
  read_leb128_signed N r = (Ok v, r') ->
  exists p,
    read_leb128_internal N r = (Ok p, r') /\
    forall M r0, read_leb128_internal M r0 = (Ok p, r') ->
                 read_leb128_signed M r0 = (Ok v, r').
Proof.
  unfold read_leb128_signed, bind, ret. intros H.
  destruct (read_leb128_internal N r) as [[p| | |] r1]; try discriminate.
  injection H as <- <-. exists p. split; [reflexivity |].
  intros M r0 ->. reflexivity.
Qed.

(** X4: a decode that succeeds at a width succeeds at every larger width
    up to 64, with the same value and the same cursor: the width only
    decides how many bytes may be read, for the unsigned and for the signed
    decoder. *)
Theorem read_leb128_widen (N M : Z) (r r' : WasmBytecodeReaderBase) (v : Z) :
  1 <= N <= M -> M <= 64 ->
  (read_leb128_unsigned N r = (Ok v, r') -> read_leb128_unsigned M r = (Ok v, r')) /\
  (read_leb128_signed N r = (Ok v, r') -> read_leb128_signed M r = (Ok v, r')).
Proof.
  intros HN HM. destruct r as [bs].
  assert (forall p, read_leb128_internal N {| remaining_ := bs |} = (Ok p, r') ->
                    read_leb128_internal M {| remaining_ := bs |} = (Ok p, r')) as Hint.
  { intros p Hp.
    apply read_leb128_internal_Ok_inv in Hp
        as (init & b & rest & -> & -> & Hall & Hb & Hlen & ->); [| lia].
    apply read_leb128_internal_ok; [lia | assumption | assumption | lia]. }
  split; intros Hrun.
  - apply read_leb128_unsigned_Ok_inv in Hrun as (p & Hp & ->).
    unfold read_leb128_unsigned, bind. by rewrite (Hint p Hp).
  - apply read_leb128_signed_Ok_inv in Hrun as (p & Hp & Hsame).
    apply Hsame. by apply Hint.
Qed.

Lemma read_leb128_widen_witness :
  read_leb128_unsigned 64 {| remaining_ := [Byte.xe5; Byte.x8e; Byte.x26] |}
  = (Ok 624485, {| remaining_ := [] |}).
Proof.
  apply (read_leb128_widen 23 64 {| remaining_ := [Byte.xe5; Byte.x8e; Byte.x26] |});
    [lia | lia | reflexivity].
Defined.

(** X5: a successful decode depends on the bytes it consumed only: the
    input is a non-empty prefix followed by what the cursor is left on, and
    the same prefix followed by any other bytes decodes to the same value
    and leaves the cursor on those bytes. *)
Theorem read_leb128_frame (N : Z) (bs : list byte) (r' : WasmBytecodeReaderBase) (v : Z) :
  1 <= N <= 64 ->
  (read_leb128_unsigned N {| remaining_ := bs |} = (Ok v, r') ->
   exists pre,
     pre <> [] /\ bs = pre ++ remaining_ r' /\
     forall rest,
       read_leb128_unsigned N {| remaining_ := pre ++ rest |}
       = (Ok v, {| remaining_ := rest |})) /\
  (read_leb128_signed N {| remaining_ := bs |} = (Ok v, r') ->
   exists pre,
     pre <> [] /\ bs = pre ++ remaining_ r' /\
     forall rest,
       read_leb128_signed N {| remaining_ := pre ++ rest |}
       = (Ok v, {| remaining_ := rest |})).
Proof.
  intros HN.
  assert (forall p, read_leb128_internal N {| remaining_ := bs |} = (Ok p, r') ->
            exists pre,
              pre <> [] /\ bs = pre ++ remaining_ r' /\
              forall rest,
                read_leb128_internal N {| remaining_ := pre ++ rest |}
                = (Ok p, {| remaining_ := rest |})) as Hint.
  { intros p Hp.
    apply read_leb128_internal_Ok_inv in Hp
        as (init & b & rest & -> & -> & Hall & Hb & Hlen & ->); [| lia].
    exists (init ++ [b]). cbn [remaining_].
    split; [by destruct init |]. split; [by rewrite <- app_assoc |].
    intros rest'. rewrite <- app_assoc. by apply read_leb128_internal_ok. }
  split; intros Hrun.
  - apply read_leb128_unsigned_Ok_inv in Hrun as (p & Hp & ->).
    destruct (Hint p Hp) as (pre & Hne & E & Hpre).
    exists pre. split; [assumption |]. split; [assumption |].
    intros rest. unfold read_leb128_unsigned, bind. by rewrite Hpre.
  - unfold read_leb128_signed, bind, ret in Hrun.
    destruct (read_leb128_internal N {| remaining_ := bs |}) as [[p| | |] r1] eqn:Hp;
      try discriminate.
    injection Hrun as <- <-.
    destruct (Hint p eq_refl) as (pre & Hne & E & Hpre).
    exists pre. split; [assumption |]. split; [assumption |].
    intros rest. unfold read_leb128_signed, bind, ret. by rewrite Hpre.
Qed.

Lemma read_leb128_frame_witness :
  exists pre,
    pre <> [] /\ [Byte.xe5; Byte.x8e; Byte.x26; Byte.xff] = pre ++ [Byte.xff] /\
    forall rest,
      read_leb128_unsigned 32 {| remaining_ := pre ++ rest |}
      = (Ok 624485, {| remaining_ := rest |}).
Proof.
  apply (read_leb128_frame 32 [Byte.xe5; Byte.x8e; Byte.x26; Byte.xff]
           {| remaining_ := [Byte.xff] |} 624485); [lia | reflexivity].
Defined.

Lemma groups_app_add (xs ys : list byte) :
  groups (xs ++ ys) = groups xs + 2 ^ (7 * Z.of_nat (length xs)) * groups ys.
Proof.
  induction xs as [|x xs IH].
  - cbn. lia.
  - cbn [app]. rewrite !groups_cons_add, IH. cbn [length]. rewrite pow2_7_succ. lia.
Qed.

(** X6: on an encoding of [k] bytes, all but the last with the
    continuation bit set, the signed decode returns the two's-complement
    reading of the [7 * k] bits of the groups when [7 * k < 64]: the groups
    themselves, less [2 ^ (7 * k)] when bit 6 of the last byte is set; the
    result lies in the signed [7 * k]-bit range.  With ten bytes
    ([7 * k = 70]) it is the low 64 bits of the groups read as an [i64]. *)
Theorem read_leb128_signed_twos_complement
  (N : Z) (init : list byte) (b : byte) (rest : list byte) :
  1 <= N <= 64 ->
  Forall (fun c => continues c = true) init ->
  continues b = false ->
  7 * Z.of_nat (length init) < N ->
  let s := 7 * (Z.of_nat (length init) + 1) in
  exists v,
    read_leb128_signed N {| remaining_ := init ++ b :: rest |}
    = (Ok v, {| remaining_ := rest |}) /\
    (s < 64 ->
     v = groups (init ++ [b]) - (if sign_bit b then 2 ^ s else 0) /\
     - 2 ^ (s - 1) <= v < 2 ^ (s - 1) /\
     v mod 2 ^ s = groups (init ++ [b])) /\
    (64 <= s -> v = bit_cast_i64 (wrap64 (groups (init ++ [b])))).
Proof.
  intros HN Hall Hb Hlen s.
  unfold read_leb128_signed, bind, ret.
  rewrite read_leb128_internal_ok by assumption.
  cbn [internal.result internal.shift internal.last_byte].
  fold (sign_bit b). fold s.
  eexists. split; [reflexivity |].
  pose proof (groups_range (init ++ [b])) as Hg.
  rewrite length_app, Nat2Z.inj_add in Hg. cbn [length] in Hg.
  replace (7 * (Z.of_nat (length init) + Z.of_nat 1)) with s in Hg by lia.
  split.
  - intros Hs. replace (s <? 64) with true by (symmetry; apply Z.ltb_lt; lia).
    cbn [andb].
    assert (2 ^ s <= 2 ^ 63) as Hs63 by (apply Z.pow_le_mono_r; lia).
    assert (2 ^ s = 2 * 2 ^ (s - 1)) as Hhalf.
    { replace s with (1 + (s - 1)) at 1 by lia. rewrite Z.pow_add_r by lia. reflexivity. }
    assert (2 ^ (s - 1) = 2 ^ (7 * Z.of_nat (length init)) * 64) as Hsign.
    { replace (s - 1) with (7 * Z.of_nat (length init) + 6) by lia.
      by rewrite Z.pow_add_r by lia. }
    pose proof (groups_range init) as Hgi.
    pose proof (payload_range b) as Hpb.
    assert (groups (init ++ [b])
            = groups init + 2 ^ (7 * Z.of_nat (length init)) * payload b) as Hsplit
      by (by rewrite groups_app_add, groups_singleton).
    rewrite sign_bit_payload.
    rewrite (wrap64_small (groups (init ++ [b]))) by lia.
    destruct (Z.leb_spec 64 (payload b)) as [Hneg|Hpos].
    + assert (2 ^ (s - 1) <= groups (init ++ [b])) as Hlow by nia.
      assert ((groups (init ++ [b]) - 2 ^ s) mod 2 ^ s = groups (init ++ [b])) as Hmod.
      { replace (groups (init ++ [b]) - 2 ^ s)
          with (groups (init ++ [b]) + (-1) * 2 ^ s) by lia.
        rewrite Z.mod_add by lia. apply Z.mod_small. lia. }
      assert (bit_cast_i64 (Z.lor (groups (init ++ [b])) (shl64 u64_ones s))
              = groups (init ++ [b]) - 2 ^ s) as ->.
      { rewrite <- (wrap64_small (groups (init ++ [b]))) at 1 by lia.
        rewrite <- Hmod at 1.
        rewrite sign_extension_wrap64 by lia.
        apply bit_cast_i64_wrap64. lia. }
      split; [reflexivity |]. split; [lia | exact Hmod].
    + assert (groups (init ++ [b]) < 2 ^ (s - 1)) as Hhigh by nia.
      assert (bit_cast_i64 (groups (init ++ [b])) = groups (init ++ [b])) as ->.
      { unfold bit_cast_i64.
        by replace (groups (init ++ [b]) <? 2 ^ 63) with true
          by (symmetry; apply Z.ltb_lt; lia). }
      rewrite Z.sub_0_r. split; [reflexivity |].
      split; [lia | apply Z.mod_small; lia].
  - intros Hs. replace (s <? 64) with false by (symmetry; apply Z.ltb_ge; lia).
    reflexivity.
Qed.

Lemma read_leb128_signed_twos_complement_witness :
  exists v,
    read_leb128_signed 8 {| remaining_ := [Byte.x80] ++ Byte.x7f :: [] |}
    = (Ok v, {| remaining_ := [] |}) /\
    (7 * (Z.of_nat (length [Byte.x80]) + 1) < 64 ->
     v = groups ([Byte.x80] ++ [Byte.x7f]) - (if sign_bit Byte.x7f then 2 ^ 14 else 0) /\
     - 2 ^ 13 <= v < 2 ^ 13 /\
     v mod 2 ^ 14 = groups ([Byte.x80] ++ [Byte.x7f])) /\
    (64 <= 7 * (Z.of_nat (length [Byte.x80]) + 1) ->
     v = bit_cast_i64 (wrap64 (groups ([Byte.x80] ++ [Byte.x7f])))).
Proof.
  apply (read_leb128_signed_twos_complement 8 [Byte.x80] Byte.x7f []);
    [lia | repeat constructor | reflexivity | cbn; lia].
Defined.

(** ** The readers of the integer types *)

Lemma bit_cast_i64_range (x : Z) :
  0 <= x < 2 ^ 64 -> - 2 ^ 63 <= bit_cast_i64 x < 2 ^ 63.
Proof.
  intros Hx. unfold bit_cast_i64.
  change (2 ^ 64) with 18446744073709551616 in *.
  change (2 ^ 63) with 9223372036854775808.
  destruct (Z.ltb_spec x 9223372036854775808); lia.
Qed.

Lemma read_leb128_unsigned_range (N : Z) (r r' : WasmBytecodeReaderBase) (v : Z) :
  read_leb128_unsigned N r = (Ok v, r') -> 0 <= v < 2 ^ 64.
Proof.
  intros H. apply read_leb128_unsigned_Ok_inv in H as (p & Hp & ->).
  by destruct (read_leb128_loop_range N _ 0 0 r r' p ltac:(lia) Hp).
Qed.

Lemma read_leb128_signed_range (N : Z) (r r' : WasmBytecodeReaderBase) (v : Z) :
  read_leb128_signed N r = (Ok v, r') -> - 2 ^ 63 <= v < 2 ^ 63.
Proof.
  unfold read_leb128_signed, bind, ret. intros H.
  destruct (read_leb128_internal N r) as [[p| | |] r1] eqn:Hp; try discriminate.
  injection H as <- <-.
  destruct (read_leb128_loop_range N _ 0 0 r r1 p ltac:(lia) Hp) as [Hres _].
  apply bit_cast_i64_range.
  destruct (_ && _); [| assumption].
  apply lor_u64; [assumption | apply wrap64_range].
Qed.

Lemma narrow_signed_range (w x : Z) :
  1 <= w -> - 2 ^ (w - 1) <= narrow_signed w x < 2 ^ (w - 1).
Proof.
  intros Hw. unfold narrow_signed.
  assert (2 ^ w = 2 * 2 ^ (w - 1)) as E.
  { replace w with (1 + (w - 1)) at 1 by lia. by rewrite Z.pow_add_r by lia. }
  pose proof (Z.mod_pos_bound (x + 2 ^ (w - 1)) (2 ^ w) ltac:(lia)). lia.
Qed.

Lemma narrow_signed_small (w x : Z) :
  1 <= w -> - 2 ^ (w - 1) <= x < 2 ^ (w - 1) -> narrow_signed w x = x.
Proof.
  intros Hw Hx. unfold narrow_signed.
  assert (2 ^ w = 2 * 2 ^ (w - 1)) as E.
  { replace w with (1 + (w - 1)) at 1 by lia. by rewrite Z.pow_add_r by lia. }
  rewrite Z.mod_small by lia. lia.
Qed.

Lemma narrow_signed_congruent (w x : Z) :
  1 <= w -> (narrow_signed w x - x) mod 2 ^ w = 0.
Proof.
  intros Hw. unfold narrow_signed.
  assert (0 < 2 ^ w) as Hpos by (apply Z.pow_pos_nonneg; lia).
  assert (2 ^ w = 2 * 2 ^ (w - 1)) as E.
  { replace w with (1 + (w - 1)) at 1 by lia. by rewrite Z.pow_add_r by lia. }
  rewrite (Z.mod_eq (x + 2 ^ (w - 1)) (2 ^ w)) by lia.
  replace (x + 2 ^ (w - 1) - 2 ^ w * ((x + 2 ^ (w - 1)) / 2 ^ w) - 2 ^ (w - 1) - x)
    with (- ((x + 2 ^ (w - 1)) / 2 ^ w) * 2 ^ w) by lia.
  apply Z.mod_mul. lia.
Qed.

(** Each reader is the decoder of its width followed by the conversion;
    for the 64-bit ones the conversion changes nothing. *)
Lemma unsigned_readers_unfold (N : Z) (reader : Read Z) (r : WasmBytecodeReaderBase) :
  In (N, reader) unsigned_readers ->
  1 <= N <= 64 /\
  reader r = (let* v := read_leb128_unsigned N in ret (wrap N v)) r.
Proof.
  intros [E|[E|[E|[E|[]]]]]; injection E as <- <-; (split; [lia |]); try reflexivity.
  unfold read_u64, bind, ret.
  destruct (read_leb128_unsigned 64 r) as [[v| | |] r'] eqn:Hrun; try reflexivity.
  apply read_leb128_unsigned_range in Hrun.
  unfold wrap. by rewrite (Z.mod_small v (2 ^ 64)).
Qed.

Lemma signed_readers_unfold (N : Z) (reader : Read Z) (r : WasmBytecodeReaderBase) :
  In (N, reader) signed_readers ->
  1 <= N <= 64 /\
  reader r = (let* v := read_leb128_signed N in ret (narrow_signed N v)) r.
Proof.
  intros [E|[E|[E|[E|[]]]]]; injection E as <- <-; (split; [lia |]); try reflexivity.
  unfold read_i64, bind, ret.
  destruct (read_leb128_signed 64 r) as [[v| | |] r'] eqn:Hrun; try reflexivity.
  apply read_leb128_signed_range in Hrun.
  by rewrite narrow_signed_small by lia.
Qed.

(** X7: [read_u8], [read_u16], [read_u32] and [read_u64] end exactly as
    the unsigned decoder of their width does: where it throws they throw
    the same error, and where it returns [w] they return [w] reduced modulo
    [2 ^ N], with the cursor where the decoder left it.  So they never
    throw for a value that is too wide for their type, what they return
    fits their type, and on the encoding of a value below [2 ^ N] they
    return that value. *)
Theorem unsigned_readers_spec (N : Z) (reader : Read Z) :
  In (N, reader) unsigned_readers ->
  (forall r,
     reader r
     = (match fst (read_leb128_unsigned N r) with
        | Ok w => Ok (w mod 2 ^ N)
        | o => o
        end, snd (read_leb128_unsigned N r))) /\
  (forall r w r',
     read_leb128_unsigned N r = (Ok w, r') ->
     reader r = (Ok (w mod 2 ^ N), r')) /\
  (forall r v r',
     reader r = (Ok v, r') ->
     0 <= v < 2 ^ N /\
     exists w, read_leb128_unsigned N r = (Ok w, r') /\ v = w mod 2 ^ N) /\
  (forall v rest,
     0 <= v < 2 ^ N ->
     reader {| remaining_ := encode_unsigned v ++ rest |}
     = (Ok v, {| remaining_ := rest |})).
Proof.
  intros Hin. split; [| split; [| split]].
  - intros r.
    destruct (unsigned_readers_unfold N reader r Hin) as [HN ->].
    unfold bind, ret, wrap.
    by destruct (read_leb128_unsigned N r) as [[w| | |] r1].
  - intros r w r' Hrun.
    destruct (unsigned_readers_unfold N reader r Hin) as [HN ->].
    unfold bind, ret, wrap. by rewrite Hrun.
  - intros r v r' Hrun.
    destruct (unsigned_readers_unfold N reader r Hin) as [HN E].
    rewrite E in Hrun. unfold bind, ret in Hrun.
    destruct (read_leb128_unsigned N r) as [[w| | |] r1]; try discriminate.
    injection Hrun as <- <-.
    split; [apply Z.mod_pos_bound; lia | by exists w].
  - intros v rest Hv.
    destruct (unsigned_readers_unfold N reader
                {| remaining_ := encode_unsigned v ++ rest |} Hin) as [HN ->].
    unfold bind, ret. rewrite read_leb128_unsigned_encode by assumption.
    unfold wrap. by rewrite Z.mod_small.
Qed.

(** The two bytes [FF 7F] decode to 16383 at width 8, and [read_u8] returns
    255, the low eight bits. *)
Lemma unsigned_readers_spec_witness :
  read_u8 {| remaining_ := [Byte.xff; Byte.x7f] |} = (Ok 255, {| remaining_ := [] |}) /\
  read_u32 {| remaining_ := encode_unsigned 624485 ++ [Byte.x00] |}
  = (Ok 624485, {| remaining_ := [Byte.x00] |}).
Proof.
  split.
  - destruct (unsigned_readers_spec 8 read_u8) as (_ & Hnarrow & _ & _).
    + cbn. tauto.
    + apply (Hnarrow {| remaining_ := [Byte.xff; Byte.x7f] |} 16383). reflexivity.
  - destruct (unsigned_readers_spec 32 read_u32) as (_ & _ & _ & Hrt).
    + cbn. tauto.
    + apply Hrt. lia.
Defined.

(** X8: [read_i8], [read_i16], [read_i32] and [read_i64] end exactly as the
    signed decoder of their width does: where it throws they throw the same
    error, and where it returns [w] they return [w] converted to their
    type, the value in the [N]-bit two's-complement range that is congruent
    to [w] modulo [2 ^ N], with the cursor where the decoder left it.  So
    they never throw for a value outside the range of their type, and on
    the signed encoding of a value in that range they return that value. *)
Theorem signed_readers_spec (N : Z) (reader : Read Z) :
  In (N, reader) signed_readers ->
  (forall r,
     reader r
     = (match fst (read_leb128_signed N r) with
        | Ok w => Ok (narrow_signed N w)
        | o => o
        end, snd (read_leb128_signed N r))) /\
  (forall r w r',
     read_leb128_signed N r = (Ok w, r') ->
     reader r = (Ok (narrow_signed N w), r') /\
     (narrow_signed N w - w) mod 2 ^ N = 0) /\
  (forall r v r',
     reader r = (Ok v, r') ->
     - 2 ^ (N - 1) <= v < 2 ^ (N - 1) /\
     exists w, read_leb128_signed N r = (Ok w, r') /\ v = narrow_signed N w) /\
  (forall v rest,
     - 2 ^ (N - 1) <= v < 2 ^ (N - 1) ->
     reader {| remaining_ := encode_signed v ++ rest |}
     = (Ok v, {| remaining_ := rest |})).
Proof.
  intros Hin. split; [| split; [| split]].
  - intros r.
    destruct (signed_readers_unfold N reader r Hin) as [HN ->].
    unfold bind, ret.
    by destruct (read_leb128_signed N r) as [[w| | |] r1].
  - intros r w r' Hrun.
    destruct (signed_readers_unfold N reader r Hin) as [HN ->].
    unfold bind, ret. rewrite Hrun. split; [reflexivity |].
    apply narrow_signed_congruent. lia.
  - intros r v r' Hrun.
    destruct (signed_readers_unfold N reader r Hin) as [HN E].
    rewrite E in Hrun. unfold bind, ret in Hrun.
    destruct (read_leb128_signed N r) as [[w| | |] r1]; try discriminate.
    injection Hrun as <- <-.
    split; [apply narrow_signed_range; lia | by exists w].
  - intros v rest Hv.
    destruct (signed_readers_unfold N reader
                {| remaining_ := encode_signed v ++ rest |} Hin) as [HN ->].
    unfold bind, ret. rewrite read_leb128_signed_encode by assumption.
    by rewrite narrow_signed_small by lia.
Qed.

(** The two bytes [80 01] decode to 128 at width 8, and [read_i8] returns
    -128. *)
Lemma signed_readers_spec_witness :
  read_i8 {| remaining_ := [Byte.x80; Byte.x01] |} = (Ok (-128), {| remaining_ := [] |}) /\
  read_i16 {| remaining_ := encode_signed (-1234) ++ [Byte.x00] |}
  = (Ok (-1234), {| remaining_ := [Byte.x00] |}).
Proof.
  split.
  - destruct (signed_readers_spec 8 read_i8) as (_ & Hnarrow & _ & _).
    + cbn. tauto.
    + apply (Hnarrow {| remaining_ := [Byte.x80; Byte.x01] |} 128). reflexivity.
  - destruct (signed_readers_spec 16 read_i16) as (_ & _ & _ & Hrt).
    + cbn. tauto.
    + apply Hrt. lia.
Defined.

(** ** Names *)

Lemma read_name_loop_enough (todo : nat) :
  forall (out bs : list byte),
    (todo <= length bs)%nat ->
    read_name_loop todo out {| remaining_ := bs |}
    = (Ok (out ++ take todo bs), {| remaining_ := drop todo bs |}).
Proof.
  induction todo as [|todo IH]; intros out bs Hlen.
  - cbn. by rewrite app_nil_r.
  - destruct bs as [|b bs]; [cbn in Hlen; lia |].
    cbn [read_name_loop]. unfold bind, read_byte. rewrite consume_cons.
    rewrite IH by (cbn in Hlen; lia). cbn. by rewrite <- app_assoc.
Qed.

Lemma read_name_loop_short (bs : list byte) :
  forall (todo : nat) (out : list byte),
    (length bs < todo)%nat ->
    read_name_loop todo out {| remaining_ := bs |}
    = (Throw UnexpectedEndOfInput, {| remaining_ := [] |}).
Proof.
  induction bs as [|b bs IH]; intros [|todo] out Hlen; try (cbn in Hlen; lia).
  - reflexivity.
  - cbn [read_name_loop]. unfold bind, read_byte. rewrite consume_cons.
    apply IH. cbn in Hlen. lia.
Qed.

(** X9: [read_name] reads a length with [read_u32] and then that many
    bytes: when they are there it returns them in order and leaves the
    cursor behind them (an empty name for length 0); when fewer remain it
    throws the unexpected-end error with the cursor at the end of the
    input. *)
Theorem read_name_spec (r r1 : WasmBytecodeReaderBase) (len : Z) :
  read_u32 r = (Ok len, r1) ->
  read_name r
  = if len <=? Z.of_nat (length (remaining_ r1))
    then (Ok (take (Z.to_nat len) (remaining_ r1)),
          {| remaining_ := drop (Z.to_nat len) (remaining_ r1) |})
    else (Throw UnexpectedEndOfInput, {| remaining_ := [] |}).
Proof.
  intros Hlen. unfold read_name, bind. rewrite Hlen. destruct r1 as [bs].
  cbn [remaining_].
  assert (0 <= len) as Hpos.
  { unfold read_u32, bind, ret in Hlen.
    destruct (read_leb128_unsigned 32 r) as [[w| | |] ?]; try discriminate.
    injection Hlen as <- _. apply Z.mod_pos_bound. lia. }
  destruct (Z.leb_spec len (Z.of_nat (length bs))).
  - by rewrite read_name_loop_enough by lia.
  - apply read_name_loop_short. lia.
Qed.

Lemma read_name_spec_witness :
  read_name {| remaining_ := [Byte.x02; Byte.x68; Byte.x69; Byte.x00] |}
  = (Ok [Byte.x68; Byte.x69], {| remaining_ := [Byte.x00] |}).
Proof.
  apply (read_name_spec {| remaining_ := [Byte.x02; Byte.x68; Byte.x69; Byte.x00] |}
           {| remaining_ := [Byte.x68; Byte.x69; Byte.x00] |} 2).
  reflexivity.
Defined.

(** ** Reference types *)

(** X12: [try_into_ref_ty] gives a reference type exactly for
    [func_ref] and [extern_ref], and the reference type it gives has the
    value of the value type it was given; [into_ref_ty] agrees with it
    wherever its assertion holds. *)
Theorem try_into_ref_ty_spec (ty : ValueType) :
  (forall rt, try_into_ref_ty ty = Some rt <-> RefType.value rt = ValueType_value ty) /\
  (try_into_ref_ty ty = None <-> ty <> func_ref /\ ty <> extern_ref) /\
  into_ref_ty ty = try_into_ref_ty ty.
Proof.
  split; [| split; [| reflexivity]].
  - intros rt. destruct ty, rt; split; intros E; try reflexivity; discriminate E.
  - destruct ty; split; try (intros [? ?]; congruence);
      try discriminate; try (intros _; split; discriminate).
Qed.

(** ** The fixture tests *)

Lemma expect_eq_round_trip (run : Outcome Z * WasmBytecodeReaderBase) (value : Z) r' :
  run = (Ok value, r') -> expect_eq run value = true.
Proof. intros ->. cbn. apply Z.eqb_refl. Qed.

(** X13: the expectations of the test [LEB128UnsignedTestFile] hold for
    every line whose bytes are the encoding of its value: at each of the
    widths 8, 16, 23, 32, 52 and 64 that the test tries for the value, the
    decoder returns the value. *)
Theorem unsigned_per_line_test_passes (value : Z) :
  0 <= value < 2 ^ 64 ->
  unsigned_per_line_test value (encode_unsigned value) = true.
Proof.
  intros Hv. unfold unsigned_per_line_test. cbv zeta.
  rewrite <- (app_nil_r (encode_unsigned value)).
  repeat match goal with
         | |- context [value <? ?limit] =>
             destruct (Z.ltb_spec value limit)
         end;
    repeat (rewrite (expect_eq_round_trip _ value {| remaining_ := [] |})
              by (apply read_leb128_unsigned_encode; lia));
    reflexivity.
Qed.

Lemma unsigned_per_line_test_passes_witness :
  unsigned_per_line_test 624485 (encode_unsigned 624485) = true.
Proof. apply (unsigned_per_line_test_passes 624485). lia. Defined.

(** X14: the expectations of the test [LEB128SignedTestFile] hold for
    every line whose bytes are the signed encoding of its value, at each of
    the widths 8, 16, 32 and 64 whose type holds the value. *)
Theorem signed_per_line_test_passes (value : Z) :
  - 2 ^ 63 <= value < 2 ^ 63 ->
  signed_per_line_test value (encode_signed value) = true.
Proof.
  intros Hv. unfold signed_per_line_test, within_bounds_of. cbv zeta.
  rewrite <- (app_nil_r (encode_signed value)).
  repeat match goal with
         | |- context [?lo <=? value] => destruct (Z.leb_spec lo value)
         | |- context [value <=? ?hi] => destruct (Z.leb_spec value hi)
         end; cbn [andb];
    repeat (rewrite (expect_eq_round_trip _ value {| remaining_ := [] |})
              by (apply read_leb128_signed_encode; cbn in *; lia));
    reflexivity.
Qed.

Lemma signed_per_line_test_passes_witness :
  signed_per_line_test (-123456) (encode_signed (-123456)) = true.
Proof. apply (signed_per_line_test_passes (-123456)). lia. Defined.

(** * Further properties of the multi-array *)

Section MultiArrayMore.
Context {T : Type}.
Variable N : nat.

(** The number of closes does not depend on what was pushed before. *)
Lemma length_pushed_between (cs : list (@MultiArrayBuilder.call T)) :
  forall cur cur' : list T,
    length (MultiArrayBuilder.pushed_between cs cur)
    = length (MultiArrayBuilder.pushed_between cs cur').
Proof.
  induction cs as [|[v|] cs IH]; intros cur cur'; cbn; [reflexivity | apply IH |].
  f_equal.
Qed.

(** Closing more sub-vectors than there are fails the assertion. *)
Lemma do_calls_too_many (cs : list (@MultiArrayBuilder.call T)) :
  forall b : @MultiArrayBuilder.t T,
    (MultiArrayBuilder.current_index_ b <= N)%nat ->
    (N < MultiArrayBuilder.current_index_ b
         + length (MultiArrayBuilder.pushed_between cs []))%nat ->
    MultiArrayBuilder.do_calls N cs b = None.
Proof.
  induction cs as [|[v|] cs IH]; intros b Hle Hgt.
  - cbn in Hgt. lia.
  - cbn [MultiArrayBuilder.do_calls MultiArrayBuilder.do_call]. apply IH; cbn.
    + assumption.
    + cbn in Hgt. by rewrite (length_pushed_between cs [] ([] ++ [v])).
  - cbn [MultiArrayBuilder.do_calls MultiArrayBuilder.do_call].
    unfold MultiArrayBuilder.end_sub_vec.
    destruct (Nat.ltb_spec (MultiArrayBuilder.current_index_ b) N); [| reflexivity].
    apply IH; cbn; [lia |]. cbn in Hgt. lia.
Qed.

(** The entries of [indices_] behind the last sub-vector closed are left
    as they were. *)
Lemma do_calls_untouched (cs : list (@MultiArrayBuilder.call T)) :
  forall (b b' : @MultiArrayBuilder.t T) (j : nat),
    MultiArrayBuilder.do_calls N cs b = Some b' ->
    (MultiArrayBuilder.current_index_ b
     + length (MultiArrayBuilder.pushed_between cs []) <= j)%nat ->
    MultiArrayBuilder.indices_ b' !! j = MultiArrayBuilder.indices_ b !! j.
Proof.
  induction cs as [|[v|] cs IH]; intros b b' j Hrun Hj.
  - by injection Hrun as <-.
  - cbn [MultiArrayBuilder.do_calls MultiArrayBuilder.do_call] in Hrun.
    rewrite (IH _ _ j Hrun); [reflexivity |].
    cbn in *. by rewrite (length_pushed_between cs [] [v]).
  - cbn [MultiArrayBuilder.do_calls MultiArrayBuilder.do_call] in Hrun.
    unfold MultiArrayBuilder.end_sub_vec in Hrun.
    destruct (MultiArrayBuilder.current_index_ b <? N)%nat; [| discriminate].
    cbn in Hj. rewrite (IH _ _ j Hrun) by (cbn; lia).
    cbn. apply list_lookup_insert_ne. lia.
Qed.

(** What a sequence of calls with at most [N] closes and fewer than
    [2 ^ 32] pushes builds. *)
Lemma do_calls_built (cs : list (@MultiArrayBuilder.call T)) :
  (length (MultiArrayBuilder.pushed_between cs []) <= N)%nat ->
  Z.of_nat (length (MultiArrayBuilder.pushed cs)) < 2 ^ 32 ->
  exists b : @MultiArrayBuilder.t T,
    MultiArrayBuilder.do_calls N cs (MultiArrayBuilder.new N) = Some b /\
    MultiArrayBuilder.underlying_ b
    = concat (MultiArrayBuilder.pushed_between cs []) ++ MultiArrayBuilder.unclosed cs [] /\
    (forall j : nat,
       (j < length (MultiArrayBuilder.pushed_between cs []))%nat ->
       MultiArrayBuilder.indices_ b !! j
       = Some (Z.of_nat (length (concat (take (S j)
                                           (MultiArrayBuilder.pushed_between cs [])))))) /\
    (forall j : nat,
       (length (MultiArrayBuilder.pushed_between cs []) <= j < N)%nat ->
       MultiArrayBuilder.indices_ b !! j = Some 0).
Proof.
  intros Hk Hsize.
  destruct (do_calls_spec N cs (MultiArrayBuilder.new N) [] [])
    as (b & Hrun & Hu & Hl & _ & Hidx); cbn; [done | by rewrite length_replicate | done |].
  cbn in Hu, Hidx.
  pose proof (pushed_split cs []) as Hsplit. cbn [app] in Hsplit.
  exists b. split; [assumption |]. split; [by rewrite Hu |]. split.
  - intros j Hj. rewrite Hidx by assumption. f_equal. apply wrap32_small.
    pose proof (length_concat_take (S j) (MultiArrayBuilder.pushed_between cs [])).
    rewrite Hsplit, length_app in Hsize. lia.
  - intros j Hj. rewrite (do_calls_untouched cs _ b j Hrun) by (cbn; lia).
    cbn. apply lookup_replicate_2. lia.
Qed.

(** X15: a sequence of calls on a fresh builder trips the assertion of
    [end_sub_vec] exactly when it closes more than [N] sub-vectors. *)
Theorem end_sub_vec_at_most_N (cs : list (@MultiArrayBuilder.call T)) :
  MultiArrayBuilder.do_calls N cs (MultiArrayBuilder.new N) = None
  <-> (N < length (MultiArrayBuilder.pushed_between cs []))%nat.
Proof.
  split.
  - intros Hnone.
    destruct (Nat.le_gt_cases (length (MultiArrayBuilder.pushed_between cs [])) N)
      as [Hle|Hgt]; [exfalso | exact Hgt].
    destruct (do_calls_spec N cs (MultiArrayBuilder.new N) [] [])
      as (b & Hrun & _); cbn; [done | by rewrite length_replicate | done |].
    congruence.
  - intros Hgt. apply do_calls_too_many; cbn; lia.
Qed.

(** X16: what the builder has recorded after calls that close at most
    [N] sub-vectors and push fewer than [2 ^ 32] elements.  [underlying_]
    holds the elements pushed, in order: the sub-vectors closed one after
    the other, then the elements pushed since the last close.  The end
    offset of each sub-vector closed is the number of elements pushed
    before its close, these offsets do not decrease, and the offsets of the
    sub-vectors not closed are still 0.  When all [N] sub-vectors are
    closed and nothing is pushed after the last close, the last offset is
    the size of [underlying_], as the comment on [indices_] says. *)
Theorem builder_records_offsets (cs : list (@MultiArrayBuilder.call T)) :
  (length (MultiArrayBuilder.pushed_between cs []) <= N)%nat ->
  Z.of_nat (length (MultiArrayBuilder.pushed cs)) < 2 ^ 32 ->
  exists b : @MultiArrayBuilder.t T,
    MultiArrayBuilder.do_calls N cs (MultiArrayBuilder.new N) = Some b /\
    MultiArrayBuilder.underlying_ b = MultiArrayBuilder.pushed cs /\
    MultiArrayBuilder.underlying_ b
    = concat (MultiArrayBuilder.pushed_between cs []) ++ MultiArrayBuilder.unclosed cs [] /\
    length (MultiArrayBuilder.indices_ b) = N /\
    (forall j : nat,
       (j < length (MultiArrayBuilder.pushed_between cs []))%nat ->
       MultiArrayBuilder.indices_ b !! j
       = Some (Z.of_nat (length (concat (take (S j)
                                           (MultiArrayBuilder.pushed_between cs [])))))) /\
    (forall j : nat,
       (length (MultiArrayBuilder.pushed_between cs []) <= j < N)%nat ->
       MultiArrayBuilder.indices_ b !! j = Some 0) /\
    (forall (i j : nat) (oi oj : Z),
       (i <= j < length (MultiArrayBuilder.pushed_between cs []))%nat ->
       MultiArrayBuilder.indices_ b !! i = Some oi ->
       MultiArrayBuilder.indices_ b !! j = Some oj ->
       oi <= oj) /\
    (length (MultiArrayBuilder.pushed_between cs []) = N ->
     MultiArrayBuilder.unclosed cs [] = [] ->
     (0 < N)%nat ->
     MultiArrayBuilder.indices_ b !! (N - 1)%nat
     = Some (Z.of_nat (length (MultiArrayBuilder.underlying_ b)))).
Proof.
  intros Hk Hsize.
  destruct (do_calls_built cs) as (b & Hrun & Hu & Hidx & Hzero); [lia | assumption |].
  destruct (do_calls_spec N cs (MultiArrayBuilder.new N) [] [])
    as (b0 & Hrun0 & _ & Hl & _); cbn; [done | by rewrite length_replicate | done |].
  rewrite Hrun in Hrun0. injection Hrun0 as <-.
  pose proof (pushed_split cs []) as Hsplit. cbn [app] in Hsplit.
  exists b. split; [assumption |]. split; [by rewrite Hu, Hsplit |].
  split; [assumption |]. split; [assumption |]. split; [assumption |].
  split; [assumption |]. split.
  - intros i j oi oj Hij Hi Hj.
    rewrite Hidx in Hi, Hj by lia. injection Hi as <-. injection Hj as <-.
    apply inj_le.
    replace (take (S j) (MultiArrayBuilder.pushed_between cs []))
      with (take (S i) (MultiArrayBuilder.pushed_between cs [])
            ++ take (j - i) (drop (S i) (MultiArrayBuilder.pushed_between cs [])))
      by (rewrite take_take_drop; f_equal; lia).
    rewrite concat_app, length_app. lia.
  - intros HkN Hclosed HN. rewrite Hidx by lia.
    replace (S (N - 1)) with N by lia.
    by rewrite take_ge, Hu, Hclosed, app_nil_r by lia.
Qed.

(** X17: [sub_vec(i)] computes its length as the difference of two [u32]
    offsets.  Where the offset of sub-vector [i] is below that of
    sub-vector [i - 1], as it is when the builder has closed sub-vector
    [i - 1] behind some elements and has not closed sub-vector [i], the
    difference wraps around to [2 ^ 32 - (begin - end)], and the view
    reaches past the end of the backing vector. *)
Theorem sub_vec_decreasing_offsets
  (a : @SmallMultiArray.t T) (i : nat) (begin e : Z) :
  (0 < i < N)%nat ->
  SmallMultiArray.indices_ a !! (i - 1)%nat = Some begin ->
  SmallMultiArray.indices_ a !! i = Some e ->
  0 <= e < begin ->
  begin < 2 ^ 32 ->
  Z.of_nat (length (SmallMultiArray.array_ a)) < 2 ^ 32 ->
  wrap32 (e - begin) = 2 ^ 32 - (begin - e) /\
  SmallMultiArray.sub_vec N a i = None.
Proof.
  intros Hi Hbegin He Hlt Hb Hsize.
  assert (wrap32 (e - begin) = 2 ^ 32 - (begin - e)) as Hwrap.
  { unfold wrap32, wrap.
    replace (e - begin) with (2 ^ 32 - (begin - e) + (-1) * 2 ^ 32) by lia.
    rewrite Z.mod_add by lia. apply Z.mod_small. lia. }
  split; [exact Hwrap |].
  unfold SmallMultiArray.sub_vec, span_of.
  replace (i <? N)%nat with true by (symmetry; apply Nat.ltb_lt; lia).
  replace (i =? 0)%nat with false by (symmetry; apply Nat.eqb_neq; lia).
  rewrite Hbegin, He, Hwrap.
  replace (_ <=? _) with false; [reflexivity |].
  symmetry. apply Z.leb_gt. lia.
Qed.

(** X18: [sub_vec(i)] of a store that holds fewer than [2 ^ 32] elements,
    the sub-vectors [segs] one after the other and then possibly more, and
    whose end offsets are the lengths of the prefixes of [segs], is the
    sub-vector [i] of [segs]. *)
Theorem sub_vec_closed_segments
  (a : @SmallMultiArray.t T) (segs : list (list T)) (tail seg : list T) (i : nat) :
  SmallMultiArray.array_ a = concat segs ++ tail ->
  Z.of_nat (length (SmallMultiArray.array_ a)) < 2 ^ 32 ->
  (forall j : nat,
     (j < length segs)%nat ->
     SmallMultiArray.indices_ a !! j = Some (Z.of_nat (length (concat (take (S j) segs))))) ->
  (i < N)%nat ->
  segs !! i = Some seg ->
  SmallMultiArray.sub_vec N a i = Some seg.
Proof.
  intros Harr Hsize Hidx HiN Hseg.
  pose proof (lookup_lt_Some _ _ _ Hseg) as Hi.
  assert (length (concat (take (S i) segs))
          = (length (concat (take i segs)) + length seg)%nat) as Hnext.
  { rewrite (take_S_r _ _ _ Hseg), concat_app, length_app. cbn. by rewrite app_nil_r. }
  assert (SmallMultiArray.array_ a
          = concat (take i segs) ++ seg ++ (concat (drop (S i) segs) ++ tail)) as Hmid.
  { rewrite Harr. rewrite <- (take_drop_middle _ _ _ Hseg) at 1.
    rewrite concat_app. cbn [concat]. by rewrite <- !app_assoc. }
  unfold SmallMultiArray.sub_vec.
  replace (i <? N)%nat with true by (symmetry; apply Nat.ltb_lt; lia).
  assert ((if (i =? 0)%nat then Some 0 else SmallMultiArray.indices_ a !! (i - 1)%nat)
          = Some (Z.of_nat (length (concat (take i segs))))) as ->.
  { destruct i as [|i]; [reflexivity |].
    cbn [Nat.eqb]. rewrite Nat.sub_succ, Nat.sub_0_r. apply Hidx. lia. }
  rewrite Hidx by assumption. rewrite Hnext, Nat2Z.inj_add.
  replace (Z.of_nat (length (concat (take i segs))) + Z.of_nat (length seg)
           - Z.of_nat (length (concat (take i segs))))
    with (Z.of_nat (length seg)) by lia.
  assert (Z.of_nat (length (concat (take i segs))) + Z.of_nat (length seg)
          <= Z.of_nat (length (SmallMultiArray.array_ a))) as Hfit.
  { rewrite Hmid at 1. rewrite !length_app. lia. }
  rewrite wrap32_small by lia.
  unfold span_of. rewrite !Nat2Z.id.
  replace (_ <=? _) with true by (symmetry; by apply Z.leb_le).
  rewrite Hmid. by rewrite drop_app_length, take_app_length.
Qed.

End MultiArrayMore.

Lemma too_many_closes_example :
  MultiArrayBuilder.do_calls 1
    [MultiArrayBuilder.Push i32; MultiArrayBuilder.EndSubVec; MultiArrayBuilder.EndSubVec]
    (MultiArrayBuilder.new 1) = None.
Proof. reflexivity. Qed.

Lemma builder_records_offsets_witness :
  exists b : @MultiArrayBuilder.t ValueType,
    MultiArrayBuilder.do_calls 2
      [MultiArrayBuilder.Push i32; MultiArrayBuilder.Push i64; MultiArrayBuilder.EndSubVec;
       MultiArrayBuilder.Push f32; MultiArrayBuilder.EndSubVec]
      (MultiArrayBuilder.new 2) = Some b /\
    MultiArrayBuilder.underlying_ b = [i32; i64; f32] /\
    MultiArrayBuilder.indices_ b !! 0%nat = Some 2 /\
    MultiArrayBuilder.indices_ b !! 1%nat = Some 3.
Proof.
  destruct (builder_records_offsets 2
              [MultiArrayBuilder.Push i32; MultiArrayBuilder.Push i64;
               MultiArrayBuilder.EndSubVec;
               MultiArrayBuilder.Push f32; MultiArrayBuilder.EndSubVec])
    as (b & Hrun & Hu & _ & _ & Hidx & _); [cbn; lia | cbn; lia |].
  exists b. split; [exact Hrun |]. split; [exact Hu |].
  split; [apply (Hidx 0%nat) | apply (Hidx 1%nat)]; cbn; lia.
Defined.

(** The members the builder holds after [push(i32)], [end_sub_vec()],
    [push(i64)]: the second sub-vector is not closed. *)
Lemma sub_vec_decreasing_offsets_witness :
  MultiArrayBuilder.do_calls 2
    [MultiArrayBuilder.Push i32; MultiArrayBuilder.EndSubVec; MultiArrayBuilder.Push i64]
    (MultiArrayBuilder.new 2)
  = Some {| MultiArrayBuilder.underlying_ := [i32; i64];
            MultiArrayBuilder.indices_ := [1; 0];
            MultiArrayBuilder.current_index_ := 1 |} /\
  wrap32 (0 - 1) = 2 ^ 32 - (1 - 0) /\
  SmallMultiArray.sub_vec 2
    {| SmallMultiArray.array_ := [i32; i64]; SmallMultiArray.indices_ := [1; 0] |} 1
  = None.
Proof.
  split; [reflexivity |].
  apply (sub_vec_decreasing_offsets 2
           {| SmallMultiArray.array_ := [i32; i64]; SmallMultiArray.indices_ := [1; 0] |}
           1 1 0); cbn; try reflexivity; lia.
Defined.

Lemma sub_vec_closed_segments_witness :
  SmallMultiArray.sub_vec 2
    {| SmallMultiArray.array_ := [i32; i64; f32]; SmallMultiArray.indices_ := [2; 3] |} 1
  = Some [f32].
Proof.
  apply (sub_vec_closed_segments 2
           {| SmallMultiArray.array_ := [i32; i64; f32];
              SmallMultiArray.indices_ := [2; 3] |}
           [[i32; i64]; [f32]] [] [f32] 1); cbn; try reflexivity; try lia.
  intros [|[|j]] Hj; cbn in *; try reflexivity; lia.
Defined.
